(** * AIChatService: natural-language todo command router

    Shallow embedding of [backend/src/services/ai_chat_service.py].

    - A Python [str] is a [string]; its characters stand for the code points
      U+0000..U+00FF, on which [str.lower] and [str.strip] are the functions
      [lower] and [strip] below.
    - The service classes the module delegates to ([TodoService],
      [ConversationService], [MessageService]) and the Gemini model are
      external: every use of them is a [call], answered by an environment
      that may return a value or raise.  The methods of the class are
      programs over these calls; [try ... except Exception] is
      [try_except].
    - The local imports and the constructors [TodoCreate(...)] and
      [TodoUpdate(...)] are taken to succeed.  [__init__], which only reads
      the API key and builds the model, is left out.
    - [Mem] renders the three stores in memory, following the interfaces of
      the design document, for the properties that need to know what a
      store does with a call. *)

From Stdlib Require Import List String Ascii Bool Arith Lia.
From Stdlib Require Import DecimalString DecimalNat.
Import ListNotations.
Local Open Scope list_scope.
Local Open Scope string_scope.

(** ** Python string primitives *)

Module PyStr.

(** [str.lower] on one code point below 256: A-Z, and U+00C0..U+00DE
    without U+00D7, move up by 32. *)
Definition lower_char (c : ascii) : ascii :=
  let n := nat_of_ascii c in
  if (((65 <=? n) && (n <=? 90))
      || ((192 <=? n) && (n <=? 222) && negb (n =? 215)))%nat
  then ascii_of_nat (n + 32) else c.

Fixpoint lower (s : string) : string :=
  match s with
  | EmptyString => EmptyString
  | String c s' => String (lower_char c) (lower s')
  end.

(** The characters [str.strip()] removes: TAB..CR, FS..US, space, NEL, NBSP. *)
Definition isspace (c : ascii) : bool :=
  let n := nat_of_ascii c in
  (((9 <=? n) && (n <=? 13)) || ((28 <=? n) && (n <=? 32))
   || (n =? 133) || (n =? 160))%nat.

Fixpoint lstrip (s : string) : string :=
  match s with
  | EmptyString => EmptyString
  | String c s' => if isspace c then lstrip s' else s
  end.

Fixpoint rstrip (s : string) : string :=
  match s with
  | EmptyString => EmptyString
  | String c s' =>
      match rstrip s' with
      | EmptyString => if isspace c then EmptyString else String c EmptyString
      | r => String c r
      end
  end.

Definition strip (s : string) : string := rstrip (lstrip s).

(** [sub in s] *)
Fixpoint contains (sub s : string) : bool :=
  prefix sub s ||
  match s with
  | EmptyString => false
  | String _ s' => contains sub s'
  end.

(** [s.replace(old, new)]: scan from the left; at an occurrence of [old]
    emit [new] and jump over the occurrence.  [skip] counts the characters
    of a matched occurrence still to be jumped over. *)
Fixpoint replace_from (old new s : string) (skip : nat) : string :=
  match s with
  | EmptyString => EmptyString
  | String c s' =>
      match skip with
      | S n => replace_from old new s' n
      | O =>
          if prefix old s
          then new ++ replace_from old new s' (length old - 1)
          else String c (replace_from old new s' 0)
      end
  end.

(** With an empty [old], Python puts [new] before every character and at
    the end. *)
Fixpoint interleave (new s : string) : string :=
  match s with
  | EmptyString => new
  | String c s' => new ++ String c (interleave new s')
  end.

Definition replace (old new s : string) : string :=
  match old with
  | EmptyString => interleave new s
  | _ => replace_from old new s 0
  end.

(** [sep.join(parts)] *)
Fixpoint join (sep : string) (parts : list string) : string :=
  match parts with
  | [] => EmptyString
  | [p] => p
  | p :: rest => p ++ sep ++ join sep rest
  end.

(** [any(kw in s for kw in kws)] *)
Definition any_in (kws : list string) (s : string) : bool :=
  existsb (fun kw => contains kw s) kws.

End PyStr.
Import PyStr.

(** ** Intent classification and slot extraction (pure part of the class) *)

Definition add_keywords : list string :=
  ["add"; "create"; "new"; "make"; "remember"; "remind"].
Definition list_keywords : list string :=
  ["list"; "show"; "see"; "view"; "display"; "all"; "my"].
Definition complete_keywords : list string :=
  ["complete"; "done"; "finish"; "mark"; "as done"; "check"].
Definition delete_keywords : list string :=
  ["delete"; "remove"; "cancel"; "erase"; "get rid of"].
Definition update_keywords : list string :=
  ["update"; "change"; "modify"; "edit"; "rename"; "fix"].

Definition _determine_intent (user_input : string) : string :=
  let user_input := lower user_input in
  if any_in add_keywords user_input then "add"
  else if any_in list_keywords user_input then "list"
  else if any_in complete_keywords user_input then "complete"
  else if any_in delete_keywords user_input then "delete"
  else if any_in update_keywords user_input then "update"
  else "other".

(** The classifier as the specification words it: a priority table of
    keyword sets, the first set with a keyword occurring in the lowercased
    text wins. *)
Definition intent_table : list (string * list string) :=
  [ ("add", add_keywords); ("list", list_keywords);
    ("complete", complete_keywords); ("delete", delete_keywords);
    ("update", update_keywords) ].

Fixpoint first_match (table : list (string * list string)) (s : string)
  : string :=
  match table with
  | [] => "other"
  | (name, kws) :: rest =>
      if any_in kws s then name else first_match rest s
  end.

Definition classify_spec (text : string) : string :=
  first_match intent_table (lower text).

(** The dictionary [_extract_todo_info] returns, by its two keys. *)
Record TodoInfo := { info_title : string; info_description : string }.

Definition filler_tokens : list string :=
  ["add"; "create"; "new"; "remember"; "remind"; "me"; "to"].

(** The body of the [for prefix in ...] loop. *)
Definition strip_token (acc prefix : string) : string :=
  strip (replace prefix "" acc).

Definition _extract_todo_info (user_input : string) : TodoInfo :=
  let user_input := lower user_input in
  let user_input := fold_left strip_token filler_tokens user_input in
  let title := strip user_input in
  {| info_title := title; info_description := "" |}.

Definition extract_title (text : string) : string :=
  info_title (_extract_todo_info text).

(** ** Records exchanged with the services *)

(** The authenticated user object, identified by its key. *)
Definition User := nat.

Module Conversation.
Record t := { id : nat; user : User }.
End Conversation.

Module Message.
Record t := { conversation : nat; role : string; content : string }.
End Message.

Module Todo.
Record t := { id : nat; user : User; title : string; description : string;
              is_completed : bool }.
End Todo.

Module TodoCreate.
Record t := { title : string; description : string; is_completed : bool }.
End TodoCreate.

(** [TodoUpdate(title=...)]: the only field the module sets. *)
Module TodoUpdate.
Record t := { title : string }.
End TodoUpdate.

(** One element of the history given to the model:
    [{"role": ..., "parts": [...]}]. *)
Record HistoryItem := { h_role : string; h_parts : list string }.

(** [str(todo.id)]: the decimal numeral of the key. *)
Definition str (n : nat) : string := NilEmpty.string_of_uint (Nat.to_uint n).

Definition nl : string := String "010"%char EmptyString.

(** ** Effects: service calls that return or raise *)

(** What a call into a service or a block of code produces: a value, or an
    [Exception] seen through [str(e)]. *)
Inductive outcome (A : Type) : Type :=
| Val (a : A)
| Exn (e : string).
Arguments Val {A} a.
Arguments Exn {A} e.

(** The operations of the collaborators, with the arguments the module
    passes (the database session is the state the environment threads). *)
Inductive call : Type -> Type :=
| get_user_conversations (user : User) (page limit : nat)
  : call (list Conversation.t * nat)
| create_conversation (user : User) : call Conversation.t
| create_message (conversation : Conversation.t) (role content : string)
  : call Message.t
| get_messages_by_conversation (conversation : Conversation.t) (user : User)
    (page limit : nat) : call (list Message.t * nat)
| get_user_todos (user : User) (completed : option bool) (page limit : nat)
  : call (list Todo.t * nat)
| create_todo (user : User) (todo_data : TodoCreate.t) : call Todo.t
| toggle_todo_completion (todo_id : string) (user : User) : call Todo.t
| delete_todo (todo_id : string) (user : User) : call bool
| update_todo (todo_id : string) (user : User) (update_data : TodoUpdate.t)
  : call Todo.t
(** [model.start_chat(history=h).send_message(m).text] *)
| send_message (history : list HistoryItem) (user_input : string)
  : call string.

(** Programs over these calls.  The continuation of a call receives its
    outcome, so that [try ... except] is a function on programs. *)
Inductive prog (A : Type) : Type :=
| Ret (a : A)
| Raise (e : string)
| Do {X : Type} (c : call X) (k : outcome X -> prog A).
Arguments Ret {A} a.
Arguments Raise {A} e.
Arguments Do {A X} c k.

Fixpoint bind {A B : Type} (p : prog A) (f : A -> prog B) : prog B :=
  match p with
  | Ret a => f a
  | Raise e => Raise e
  | Do c k => Do c (fun o => bind (k o) f)
  end.

(** A call whose exception is not handled on the spot. *)
Definition perform {X : Type} (c : call X) : prog X :=
  Do c (fun o => match o with Val x => Ret x | Exn e => Raise e end).

(** [try: p  except Exception as e: h e] *)
Fixpoint try_except {A : Type} (p : prog A) (h : string -> prog A) : prog A :=
  match p with
  | Ret a => Ret a
  | Raise e => h e
  | Do c k => Do c (fun o => try_except (k o) h)
  end.

Declare Scope prog_scope.
Delimit Scope prog_scope with prog.
Notation "x <- p ;; q" := (bind p (fun x => q))
  (at level 100, p at next level, right associativity) : prog_scope.
Notation "' pat <- p ;; q" := (bind p (fun x => match x with pat => q end))
  (at level 100, pat pattern, p at next level, right associativity)
  : prog_scope.
Local Open Scope prog_scope.

(** One call as it happened: the operation and what it answered. *)
Inductive entry : Type :=
| Entry {X : Type} (c : call X) (o : outcome X).

Section Run.
Variable W : Type.

(** An environment answers every call from a state and moves to a new
    state. *)
Definition env : Type := forall X : Type, call X -> W -> outcome X * W.

Variable E : env.

(** Running a program: its outcome, the final state and the calls made. *)
Fixpoint run {A : Type} (p : prog A) (w : W) : outcome A * W * list entry :=
  match p with
  | Ret a => (Val a, w, [])
  | Raise e => (Exn e, w, [])
  | Do c k =>
      let (o, w1) := E _ c w in
      let '(r, w2, log) := run (k o) w1 in
      (r, w2, Entry c o :: log)
  end.

Definition result {A : Type} (p : prog A) (w : W) : outcome A :=
  fst (fst (run p w)).
Definition final {A : Type} (p : prog A) (w : W) : W :=
  snd (fst (run p w)).
Definition calls {A : Type} (p : prog A) (w : W) : list entry :=
  snd (run p w).
End Run.
Arguments run {W} E {A} p w.
Arguments result {W} E {A} p w.
Arguments final {W} E {A} p w.
Arguments calls {W} E {A} p w.

(** ** The service class *)

Definition apology : string :=
  "I'm sorry, I encountered an error processing your request: ".

(** Lines 41-45 and 95-99: the most recent conversation of the user, or a
    new one. *)
Definition current_conversation (user : User) : prog Conversation.t :=
  '(conversations, _) <- perform (get_user_conversations user 1 1) ;;
  match conversations with
  | conversation :: _ => Ret conversation
  | [] => perform (create_conversation user)
  end.

Definition format_message (msg : Message.t) : HistoryItem :=
  {| h_role := Message.role msg; h_parts := [Message.content msg] |}.

(** Lines 56-67 and 367-378: the fetched messages in order, then the
    current input. *)
Definition formatted_history (recent_messages : list Message.t)
    (user_input : string) : list HistoryItem :=
  (map format_message recent_messages
   ++ [ {| h_role := "user"; h_parts := [user_input] |} ])%list.

(** Lines 70-75 and 381-386: the guarded exchange with the model;
    [removelast] is the slice [[:-1]]. *)
Definition ask_model (recent_messages : list Message.t) (user_input : string)
  : prog string :=
  try_except
    (perform (send_message
                (removelast (formatted_history recent_messages user_input))
                user_input))
    (fun e => Ret (apology ++ e)).

Definition process_chat (user_input : string) (user : User) : prog string :=
  conversation <- current_conversation user ;;
  _ <- perform (create_message conversation "user" user_input) ;;
  '(recent_messages, _) <-
     perform (get_messages_by_conversation conversation user 1 10) ;;
  ai_response <- ask_model recent_messages user_input ;;
  _ <- perform (create_message conversation "assistant" ai_response) ;;
  Ret ai_response.

Definition _extract_todo_id (user_input : string) (user : User)
  : prog string :=
  '(todos, _) <- perform (get_user_todos user None 1 1) ;;
  match todos with
  | todo :: _ => Ret (str (Todo.id todo))
  | [] => Ret ""
  end.

Definition _handle_add_todo (user_input : string) (user : User)
  : prog string :=
  let todo_info := _extract_todo_info user_input in
  let todo_data :=
    {| TodoCreate.title := info_title todo_info;
       TodoCreate.description := info_description todo_info;
       TodoCreate.is_completed := false |} in
  new_todo <- perform (create_todo user todo_data) ;;
  Ret ("I've added '" ++ Todo.title new_todo ++ "' to your todo list.").

(** Lines 240-245: which todos the sentence asks for. *)
Definition status_filter (user_input : string) : option bool :=
  let user_input_lower := lower user_input in
  if contains "pending" user_input_lower
     || contains "incomplete" user_input_lower
  then Some false
  else if contains "completed" user_input_lower
          || contains "done" user_input_lower
  then Some true
  else None.

(** Lines 250-265: the answer for a fetched page of todos. *)
Definition list_response (filter : option bool) (todos : list Todo.t)
  : string :=
  match todos with
  | [] =>
      match filter with
      | Some false => "You don't have any pending todos right now."
      | Some true => "You don't have any completed todos right now."
      | None => "You don't have any todos right now."
      end
  | _ :: _ =>
      let todo_list :=
        join nl (map (fun todo => "- " ++ Todo.title todo) todos) in
      match filter with
      | Some false => "Here are your pending todos:" ++ nl ++ todo_list
      | Some true => "Here are your completed todos:" ++ nl ++ todo_list
      | None => "Here are your todos:" ++ nl ++ todo_list
      end
  end.

Definition _handle_list_todos (user_input : string) (user : User)
  : prog string :=
  let status_filter := status_filter user_input in
  '(todos, _) <- perform (get_user_todos user status_filter 1 20) ;;
  Ret (list_response status_filter todos).

Definition _handle_complete_todo (user_input : string) (user : User)
  : prog string :=
  todo_id <- _extract_todo_id user_input user ;;
  match todo_id with
  | EmptyString =>
      Ret "I couldn't find a specific todo to mark as complete. Please specify which todo you want to complete."
  | _ =>
      todo <- perform (toggle_todo_completion todo_id user) ;;
      let status :=
        if Todo.is_completed todo then "completed"
        else "marked as incomplete" in
      Ret ("I've marked '" ++ Todo.title todo ++ "' as " ++ status ++ ".")
  end.

Definition _handle_delete_todo (user_input : string) (user : User)
  : prog string :=
  todo_id <- _extract_todo_id user_input user ;;
  match todo_id with
  | EmptyString =>
      Ret "I couldn't find a specific todo to delete. Please specify which todo you want to delete."
  | _ =>
      success <- perform (delete_todo todo_id user) ;;
      if success : bool
      then Ret "The todo has been deleted successfully."
      else Ret "I couldn't delete that todo. It may not exist or you may not have permission to delete it."
  end.

(** Line 336: three replacements in sequence on the text as typed. *)
Definition update_new_title (user_input : string) : string :=
  strip (replace "modify" "" (replace "change" "" (replace "update" ""
           user_input))).

Definition _handle_update_todo (user_input : string) (user : User)
  : prog string :=
  '(todos, _) <- perform (get_user_todos user None 1 1) ;;
  match todos with
  | [] => Ret "You don't have any todos to update."
  | todo0 :: _ =>
      let new_title := update_new_title user_input in
      match new_title with
      | EmptyString =>
          Ret "Please specify what you'd like to change the todo to."
      | _ =>
          let update_data := {| TodoUpdate.title := new_title |} in
          updated_todo <-
            perform (update_todo (str (Todo.id todo0)) user update_data) ;;
          Ret ("I've updated the todo to '" ++ Todo.title updated_todo
               ++ "'.")
      end
  end.

Definition _handle_general_query (user_input : string)
    (conversation : Conversation.t) (user : User) : prog string :=
  '(recent_messages, _) <-
     perform (get_messages_by_conversation conversation user 1 10) ;;
  ask_model recent_messages user_input.

(** Lines 108-120: the body of the [try]. *)
Definition dispatch (intent user_input : string)
    (conversation : Conversation.t) (user : User) : prog string :=
  if intent =? "add" then _handle_add_todo user_input user
  else if intent =? "list" then _handle_list_todos user_input user
  else if intent =? "complete" then _handle_complete_todo user_input user
  else if intent =? "delete" then _handle_delete_todo user_input user
  else if intent =? "update" then _handle_update_todo user_input user
  else _handle_general_query user_input conversation user.

(** Lines 107-122: the [try] with its [except Exception]. *)
Definition guarded_dispatch (intent user_input : string)
    (conversation : Conversation.t) (user : User) : prog string :=
  try_except (dispatch intent user_input conversation user)
             (fun e => Ret (apology ++ e)).

Definition process_natural_language_todo_command (user_input : string)
    (user : User) : prog string :=
  conversation <- current_conversation user ;;
  _ <- perform (create_message conversation "user" user_input) ;;
  let intent := _determine_intent (lower user_input) in
  response <- guarded_dispatch intent user_input conversation user ;;
  _ <- perform (create_message conversation "assistant" response) ;;
  Ret response.

(** ** The stores, in memory *)

Module Mem.

(** Modelled from the spec: the state behind the Todo, Conversation and
    Message stores of section 6, whose implementations are not part of
    this module.  Each list is kept in creation order. *)
Record store := {
  conversations : list Conversation.t;
  messages : list Message.t;
  todos : list Todo.t;
  next_id : nat
}.

(** Modelled from the spec: the stores before anything was created. *)
Definition empty : store :=
  {| conversations := []; messages := []; todos := []; next_id := 1 |}.

(** Modelled from the spec: the [page, limit] window of the paginated
    listings of section 6. *)
Definition page_window {A : Type} (page limit : nat) (l : list A) : list A :=
  firstn limit (skipn ((page - 1) * limit) l).

(** Modelled from the spec: Conversation Store [list_recent(owner, page,
    limit) -> (conversations, total)], most recent first. *)
Definition list_recent (st : store) (user : User) (page limit : nat)
  : list Conversation.t * nat :=
  let mine :=
    filter (fun c => Conversation.user c =? user)%nat
           (rev (conversations st)) in
  (page_window page limit mine, List.length mine).

(** Modelled from the spec: Conversation Store [create(owner) ->
    conversation]. *)
Definition new_conversation (st : store) (user : User)
  : Conversation.t * store :=
  let c := {| Conversation.id := next_id st; Conversation.user := user |} in
  (c, {| conversations := (conversations st ++ [c])%list;
         messages := messages st; todos := todos st;
         next_id := S (next_id st) |}).

(** Modelled from the spec: Message Store [append(conversation, role,
    content) -> message]; ordering is insertion order. *)
Definition append_message (st : store) (conversation : Conversation.t)
    (role content : string) : Message.t * store :=
  let m := {| Message.conversation := Conversation.id conversation;
              Message.role := role; Message.content := content |} in
  (m, {| conversations := conversations st;
         messages := (messages st ++ [m])%list; todos := todos st;
         next_id := next_id st |}).

(** Modelled from the spec: Message Store [list(conversation, owner, page,
    limit) -> (messages, total)]; page 1 holds the last [limit] messages
    of the conversation, in insertion order. *)
Definition list_messages (st : store) (conversation : Conversation.t)
    (user : User) (page limit : nat) : list Message.t * nat :=
  let own :=
    filter (fun m => (Message.conversation m =? Conversation.id conversation)
                     && (Conversation.user conversation =? user))%nat
           (messages st) in
  (rev (page_window page limit (rev own)), List.length own).

(** Modelled from the spec: the filter of the todo listing, by owner and,
    when given, by completion flag. *)
Definition wanted (user : User) (completed : option bool) (t : Todo.t)
  : bool :=
  (Todo.user t =? user)%nat
  && match completed with
     | None => true
     | Some b => Bool.eqb (Todo.is_completed t) b
     end.

(** Modelled from the spec: Todo Store [list(owner, completed?, page,
    limit) -> (items, total)], newest first. *)
Definition list_todos (st : store) (user : User) (completed : option bool)
    (page limit : nat) : list Todo.t * nat :=
  let mine := filter (wanted user completed) (rev (todos st)) in
  (page_window page limit mine, List.length mine).

(** Modelled from the spec: Todo Store [create(owner, title, description,
    completed=false) -> item]. *)
Definition new_todo (st : store) (user : User) (data : TodoCreate.t)
  : Todo.t * store :=
  let t := {| Todo.id := next_id st; Todo.user := user;
              Todo.title := TodoCreate.title data;
              Todo.description := TodoCreate.description data;
              Todo.is_completed := TodoCreate.is_completed data |} in
  (t, {| conversations := conversations st; messages := messages st;
         todos := (todos st ++ [t])%list; next_id := S (next_id st) |}).

(** Modelled from the spec: the todo a handler names by [str(todo.id)]. *)
Definition has_id (todo_id : string) (t : Todo.t) : bool :=
  str (Todo.id t) =? todo_id.

(** Modelled from the spec: the state with another list of todos. *)
Definition with_todos (st : store) (l : list Todo.t) : store :=
  {| conversations := conversations st; messages := messages st;
     todos := l; next_id := next_id st |}.

(** Modelled from the spec: a change applied to the named todo, in
    place. *)
Definition amend (todo_id : string) (f : Todo.t -> Todo.t)
    (l : list Todo.t) : list Todo.t :=
  map (fun t => if has_id todo_id t then f t else t) l.

(** Modelled from the spec: [toggle_completion], completed to incomplete
    and back. *)
Definition flip (t : Todo.t) : Todo.t :=
  {| Todo.id := Todo.id t; Todo.user := Todo.user t;
     Todo.title := Todo.title t; Todo.description := Todo.description t;
     Todo.is_completed := negb (Todo.is_completed t) |}.

(** Modelled from the spec: [update] with a title as its only field. *)
Definition retitle (title : string) (t : Todo.t) : Todo.t :=
  {| Todo.id := Todo.id t; Todo.user := Todo.user t;
     Todo.title := title; Todo.description := Todo.description t;
     Todo.is_completed := Todo.is_completed t |}.

(** Modelled from the spec: the way [toggle_completion] and [update] of the
    Todo Store reach an item: [item | fails NotFound/Forbidden]. *)
Definition change (st : store) (todo_id : string) (user : User)
    (f : Todo.t -> Todo.t) : outcome Todo.t * store :=
  match find (has_id todo_id) (todos st) with
  | None => (Exn "Todo not found", st)
  | Some t =>
      if (Todo.user t =? user)%nat
      then (Val (f t), with_todos st (amend todo_id f (todos st)))
      else (Exn "Not authorized to access this todo", st)
  end.

(** Modelled from the spec: Todo Store [delete(id, owner) -> bool], false
    when the item is not found or not owned. *)
Definition remove (st : store) (todo_id : string) (user : User)
  : bool * store :=
  match find (has_id todo_id) (todos st) with
  | None => (false, st)
  | Some t =>
      if (Todo.user t =? user)%nat
      then (true,
            with_todos st (filter (fun t' => negb (has_id todo_id t'))
                                  (todos st)))
      else (false, st)
  end.

(** Modelled from the spec: the collaborators of section 6 as one
    environment; [model] is the AI Completion Client
    [complete(history, next_input) -> text | fails]. *)
Definition serve (model : list HistoryItem -> string -> outcome string)
  : env store :=
  fun X c =>
    match c in call X return store -> outcome X * store with
    | get_user_conversations user page limit => fun st =>
        (Val (list_recent st user page limit), st)
    | create_conversation user => fun st =>
        let (c, st') := new_conversation st user in (Val c, st')
    | create_message conversation role content => fun st =>
        let (m, st') := append_message st conversation role content in
        (Val m, st')
    | get_messages_by_conversation conversation user page limit => fun st =>
        (Val (list_messages st conversation user page limit), st)
    | get_user_todos user completed page limit => fun st =>
        (Val (list_todos st user completed page limit), st)
    | create_todo user data => fun st =>
        let (t, st') := new_todo st user data in (Val t, st')
    | toggle_todo_completion todo_id user => fun st =>
        change st todo_id user flip
    | delete_todo todo_id user => fun st =>
        let (b, st') := remove st todo_id user in (Val b, st')
    | update_todo todo_id user update_data => fun st =>
        change st todo_id user (retitle (TodoUpdate.title update_data))
    | send_message history user_input => fun st =>
        (model history user_input, st)
    end.

(** Modelled from the spec: the invariant of the identifiers a store
    hands out: no two todos share one, and all are below the next one. *)
Definition well_formed (st : store) : Prop :=
  NoDup (map Todo.id (todos st))
  /\ Forall (fun t => Todo.id t < next_id st) (todos st).

(** A model that answers every message with the same text. *)
Definition parrot (reply : string) : list HistoryItem -> string -> outcome string :=
  fun _ _ => Val reply.

(** The stores with an outage: the calls picked by [down] raise and leave
    the state as it is. *)
Definition outage (down : forall X : Type, call X -> option string)
    (E : env store) : env store :=
  fun X c st =>
    match down X c with
    | Some e => (Exn e, st)
    | None => E X c st
    end.

Definition todos_down : forall X : Type, call X -> option string :=
  fun X c =>
    match c with
    | get_user_todos _ _ _ _ | create_todo _ _ | toggle_todo_completion _ _
    | delete_todo _ _ | update_todo _ _ _ => Some "todo store unavailable"
    | _ => None
    end.

Definition conversations_down : forall X : Type, call X -> option string :=
  fun X c =>
    match c with
    | get_user_conversations _ _ _ | create_conversation _ =>
        Some "conversation store unavailable"
    | _ => None
    end.

End Mem.

(** ** Observations on programs and runs *)

Definition is_create_message (X : Type) (c : call X) : bool :=
  match c with
  | create_message _ _ _ => true
  | _ => false
  end.

Definition is_delete_todo (X : Type) (c : call X) : bool :=
  match c with
  | delete_todo _ _ => true
  | _ => false
  end.

(** The entries of a log that are calls of the kind [kind]. *)
Definition of_kind (kind : forall X : Type, call X -> bool) (x : entry)
  : bool :=
  match x with
  | Entry c _ => kind _ c
  end.

(** A program that makes no call of the kind [kind], whatever the
    environment answers. *)
Inductive avoids (kind : forall X : Type, call X -> bool) {A : Type}
  : prog A -> Prop :=
| avoids_ret (a : A) : avoids kind (Ret a)
| avoids_raise (e : string) : avoids kind (Raise e)
| avoids_do {X : Type} (c : call X) (k : outcome X -> prog A) :
    kind X c = false -> (forall o, avoids kind (k o)) ->
    avoids kind (Do c k).

(** The shape the two entry points share: find the conversation, log the
    user message, compute the answer with [body], log the answer, return
    it. *)
Definition turn (user_input : string) (user : User)
    (body : Conversation.t -> prog string) : prog string :=
  conversation <- current_conversation user ;;
  _ <- perform (create_message conversation "user" user_input) ;;
  response <- body conversation ;;
  _ <- perform (create_message conversation "assistant" response) ;;
  Ret response.

(** How a turn came by its conversation, as its log shows it: the most
    recent one of the listing, or a new one when the listing was empty. *)
Definition resolved (user : User) (conversation : Conversation.t)
    (log : list entry) : Prop :=
  (exists rest total,
      log = [Entry (get_user_conversations user 1 1)
                   (Val (conversation :: rest, total))])
  \/ (exists total,
      log = [Entry (get_user_conversations user 1 1) (Val ([], total));
             Entry (create_conversation user) (Val conversation)]).

(** The failures of [process_natural_language_todo_command] outside its
    [try]: finding or creating the conversation, logging the user message,
    logging the answer. *)
Inductive boundary_failure {W : Type} (E : env W) (user_input : string)
    (user : User) (w : W) (e : string) : Prop :=
| lookup_fails (w1 : W) :
    E _ (get_user_conversations user 1 1) w = (Exn e, w1) ->
    boundary_failure E user_input user w e
| creation_fails (total : nat) (w1 w2 : W) :
    E _ (get_user_conversations user 1 1) w = (Val ([], total), w1) ->
    E _ (create_conversation user) w1 = (Exn e, w2) ->
    boundary_failure E user_input user w e
| user_log_fails (conversation : Conversation.t) (w1 w2 : W)
    (log1 : list entry) :
    run E (current_conversation user) w = (Val conversation, w1, log1) ->
    E _ (create_message conversation "user" user_input) w1 = (Exn e, w2) ->
    boundary_failure E user_input user w e
| answer_log_fails (conversation : Conversation.t) (m : Message.t)
    (response : string) (w1 w2 w3 w4 : W) (log1 log3 : list entry) :
    run E (current_conversation user) w = (Val conversation, w1, log1) ->
    E _ (create_message conversation "user" user_input) w1 = (Val m, w2) ->
    run E (guarded_dispatch (_determine_intent (lower user_input))
             user_input conversation user) w2 = (Val response, w3, log3) ->
    E _ (create_message conversation "assistant" response) w3 = (Exn e, w4) ->
    boundary_failure E user_input user w e.

(** ** Sample environments and stores *)

Definition healthy : env Mem.store := Mem.serve (Mem.parrot "Hello!").

Definition todos_out : env Mem.store := Mem.outage Mem.todos_down healthy.

Definition conversations_out : env Mem.store :=
  Mem.outage Mem.conversations_down healthy.

Definition milk : Todo.t :=
  {| Todo.id := 1; Todo.user := 7; Todo.title := "buy milk";
     Todo.description := ""; Todo.is_completed := false |}.

Definition one_todo : Mem.store :=
  {| Mem.conversations := []; Mem.messages := []; Mem.todos := [milk];
     Mem.next_id := 2 |}.

(** ** Specification-level notions *)

(** A text that does not begin with a character [strip] removes. *)
Definition clean_front (s : string) : Prop :=
  match s with
  | EmptyString => True
  | String c _ => isspace c = false
  end.

(** The specification's removal of a token: every occurrence met when
    reading the text from the left is cut out, wherever it stands. *)
Inductive removed (token : string) : string -> string -> Prop :=
| removed_end : removed token "" ""
| removed_keep (c : ascii) (s s' : string) :
    prefix token (String c s) = false ->
    removed token s s' ->
    removed token (String c s) (String c s')
| removed_cut (s rest s' : string) :
    s = token ++ rest -> token <> "" ->
    removed token rest s' ->
    removed token s s'.

(** The specification's extraction: the fillers are removed one after the
    other, trimming after each removal. *)
Inductive fillers_removed : list string -> string -> string -> Prop :=
| fillers_done (s : string) : fillers_removed [] s s
| fillers_step (token : string) (tokens : list string) (s s1 s2 : string) :
    removed token s s1 ->
    fillers_removed tokens (strip s1) s2 ->
    fillers_removed (token :: tokens) s s2.

Definition title_spec (text title : string) : Prop :=
  fillers_removed filler_tokens (lower text) title.

(** ** Further observations *)

Definition is_send_message (X : Type) (c : call X) : bool :=
  match c with
  | send_message _ _ => true
  | _ => false
  end.

(** The calls that change the todo store. *)
Definition is_todo_write (X : Type) (c : call X) : bool :=
  match c with
  | create_todo _ _ | toggle_todo_completion _ _ | delete_todo _ _
  | update_todo _ _ _ => true
  | _ => false
  end.

(** A call that changes the todos or asks the model. *)
Definition is_effect (X : Type) (c : call X) : bool :=
  is_todo_write X c || is_send_message X c.

(** A program that makes at most [n] calls of the kind [kind] on any of
    its paths. *)
Inductive at_most (kind : forall X : Type, call X -> bool) {A : Type}
  : nat -> prog A -> Prop :=
| at_most_ret (n : nat) (a : A) : at_most kind n (Ret a)
| at_most_raise (n : nat) (e : string) : at_most kind n (Raise e)
| at_most_other (n : nat) {X : Type} (c : call X) (k : outcome X -> prog A) :
    kind X c = false -> (forall o, at_most kind n (k o)) ->
    at_most kind n (Do c k)
| at_most_one_more (n : nat) {X : Type} (c : call X)
    (k : outcome X -> prog A) :
    (forall o, at_most kind n (k o)) ->
    at_most kind (S n) (Do c k).

(** What a log asks the todo store to retitle, toggle and delete: the
    todo named, the user, and for a retitling the title. *)
Definition update_requests (log : list entry)
  : list (string * User * string) :=
  flat_map (fun x =>
              match x with
              | Entry c _ =>
                  match c with
                  | update_todo todo_id user update_data =>
                      [(todo_id, user, TodoUpdate.title update_data)]
                  | _ => []
                  end
              end) log.

Definition toggle_requests (log : list entry) : list (string * User) :=
  flat_map (fun x =>
              match x with
              | Entry c _ =>
                  match c with
                  | toggle_todo_completion todo_id user => [(todo_id, user)]
                  | _ => []
                  end
              end) log.

Definition delete_requests (log : list entry) : list (string * User) :=
  flat_map (fun x =>
              match x with
              | Entry c _ =>
                  match c with
                  | delete_todo todo_id user => [(todo_id, user)]
                  | _ => []
                  end
              end) log.

(** The todo a handler without a parser acts on: the first of the listing
    of page 1, limit 1, when there is one. *)
Definition listed_target {W : Type} (E : env W) (user : User) (w : W)
  : list (string * User) :=
  match fst (E _ (get_user_todos user None 1 1) w) with
  | Val (todo :: _, _) => [(str (Todo.id todo), user)]
  | _ => []
  end.

(** More sample environments: the message listing is out, the model is
    out, the assistant messages cannot be written. *)
Definition messages_down : forall X : Type, call X -> option string :=
  fun X c =>
    match c with
    | get_messages_by_conversation _ _ _ _ =>
        Some "message store unavailable"
    | _ => None
    end.

Definition model_down : forall X : Type, call X -> option string :=
  fun X c =>
    match c with
    | send_message _ _ => Some "quota exceeded"
    | _ => None
    end.

Definition answers_down : forall X : Type, call X -> option string :=
  fun X c =>
    match c with
    | create_message _ role _ =>
        if role =? "assistant" then Some "message store unavailable"
        else None
    | _ => None
    end.

Definition history_out : env Mem.store := Mem.outage messages_down healthy.

Definition answers_out : env Mem.store := Mem.outage answers_down healthy.

Definition model_out : env Mem.store := Mem.outage model_down healthy.

(** ** The constructor *)

(** What [__init__] leaves behind: the key given to [configure] and the
    name given to [GenerativeModel]. *)
Record Service := { configured_key : string; model_name : string }.

(** Lines 19-26; [getenv] is [os.getenv] over the environment of the
    process, [Exn] the [ValueError] with its message. *)
Definition __init__ (getenv : string -> option string) : outcome Service :=
  let api_key := getenv "GEMINI_API_KEY" in
  match api_key with
  | None | Some EmptyString =>
      Exn "GEMINI_API_KEY environment variable is required"
  | Some key =>
      Val {| configured_key := key; model_name := "gemini-pro" |}
  end.

(** * Properties *)

(** ** Strings *)

Section StringFacts.

Lemma lower_char_idem (c : ascii) : lower_char (lower_char c) = lower_char c.
Proof. destruct c as [[] [] [] [] [] [] [] []]; reflexivity. Qed.

Lemma lower_idem (s : string) : lower (lower s) = lower s.
Proof.
  induction s as [|c s IH]; simpl; [reflexivity|].
  now rewrite lower_char_idem, IH.
Qed.

Lemma prefix_app (a b : string) : prefix a (a ++ b) = true.
Proof.
  induction a as [|c a IH]; simpl.
  - now destruct b.
  - destruct (ascii_dec c c); [exact IH | congruence].
Qed.

Lemma prefix_split (a s : string) :
  prefix a s = true -> exists b, s = a ++ b.
Proof.
  revert s; induction a as [|c a IH]; intros s H.
  - now exists s.
  - destruct s as [|d s]; simpl in H; [discriminate|].
    destruct (ascii_dec c d) as [->|]; [|discriminate].
    destruct (IH _ H) as [b ->]. now exists b.
Qed.

Lemma prefix_lower (a s : string) :
  prefix a s = true -> prefix (lower a) (lower s) = true.
Proof.
  revert s; induction a as [|c a IH]; intros s H.
  - now destruct s.
  - destruct s as [|d s]; simpl in H; [discriminate|].
    destruct (ascii_dec c d) as [->|]; [|discriminate].
    simpl. destruct (ascii_dec (lower_char d) (lower_char d)); [|congruence].
    now apply IH.
Qed.

Lemma contains_lower (a s : string) :
  contains a s = true -> contains (lower a) (lower s) = true.
Proof.
  induction s as [|d s IH]; cbn [contains lower]; intros H.
  - rewrite orb_false_r in *. now apply (prefix_lower a "").
  - apply orb_true_iff in H. apply orb_true_iff. destruct H as [H|H].
    + left. now apply (prefix_lower a (String d s)).
    + right. now apply IH.
Qed.

(** [sub in s] holds exactly when [s] can be cut around a copy of [sub]. *)
Lemma contains_iff (sub s : string) :
  contains sub s = true <-> exists a b, s = a ++ sub ++ b.
Proof.
  split.
  - induction s as [|d s IH]; cbn [contains]; intros H.
    + rewrite orb_false_r in H. destruct (prefix_split _ _ H) as [b ->].
      now exists "", b.
    + apply orb_true_iff in H. destruct H as [H|H].
      * destruct (prefix_split _ _ H) as [b ->]. now exists "", b.
      * destruct (IH H) as (a & b & ->). now exists (String d a), b.
  - intros (a & b & ->). induction a as [|d a IH].
    + change ("" ++ sub ++ b) with (sub ++ b).
      destruct (sub ++ b) eqn:E; cbn [contains]; rewrite <- E, prefix_app;
        reflexivity.
    + change (String d a ++ sub ++ b) with (String d (a ++ sub ++ b)).
      cbn [contains]. apply orb_true_iff. now right.
Qed.

Lemma append_nil_r (s : string) : s ++ "" = s.
Proof. induction s; simpl; congruence. Qed.

Lemma append_assoc (a b c : string) : (a ++ b) ++ c = a ++ b ++ c.
Proof. induction a; simpl; congruence. Qed.

Lemma append_inv_head (a b c : string) : a ++ b = a ++ c -> b = c.
Proof. induction a; simpl; intros H; [assumption|]. injection H. auto. Qed.

(** *** strip *)

Lemma lstrip_clean (s : string) : clean_front (lstrip s).
Proof.
  induction s as [|c s IH]; simpl; [exact I|].
  destruct (isspace c) eqn:E; [exact IH | exact E].
Qed.

Lemma lstrip_fixed (s : string) : clean_front s -> lstrip s = s.
Proof. destruct s as [|c s]; simpl; [reflexivity|]. now intros ->. Qed.

Lemma rstrip_clean (s : string) : clean_front s -> clean_front (rstrip s).
Proof.
  destruct s as [|c s]; simpl; [trivial|]. intros H.
  destruct (rstrip s); [rewrite H|]; exact H.
Qed.

Lemma rstrip_idem (s : string) : rstrip (rstrip s) = rstrip s.
Proof.
  induction s as [|c s IH]; simpl; [reflexivity|].
  destruct (rstrip s) as [|d r] eqn:E.
  - destruct (isspace c) eqn:Ec; simpl; [reflexivity | now rewrite Ec].
  - change (rstrip (String c (String d r))) with
      (match rstrip (String d r) with
       | EmptyString => if isspace c then EmptyString else String c EmptyString
       | r' => String c r'
       end).
    now rewrite IH.
Qed.

Lemma strip_idem (s : string) : strip (strip s) = strip s.
Proof.
  unfold strip.
  rewrite (lstrip_fixed (rstrip (lstrip s))).
  - apply rstrip_idem.
  - apply rstrip_clean, lstrip_clean.
Qed.

(** *** replace *)

Lemma replace_skip (old new a b : string) :
  replace_from old new (a ++ b) (length a) = replace_from old new b 0.
Proof. induction a as [|c a IH]; simpl; [reflexivity | exact IH]. Qed.

Lemma replace_hit (old new b : string) :
  old <> "" -> replace old new (old ++ b) = new ++ replace old new b.
Proof.
  destruct old as [|c old]; [congruence|]. intros _.
  unfold replace.
  change (String c old ++ b) with (String c (old ++ b)).
  cbn [replace_from].
  change (String c (old ++ b)) with (String c old ++ b).
  rewrite prefix_app. cbn [length]. rewrite Nat.sub_succ, Nat.sub_0_r.
  now rewrite replace_skip.
Qed.

Lemma replace_miss (old new : string) (c : ascii) (s : string) :
  prefix old (String c s) = false ->
  replace old new (String c s) = String c (replace old new s).
Proof.
  destruct old as [|d old]; [discriminate|]. intros H.
  unfold replace. cbn [replace_from]. now rewrite H.
Qed.

Lemma replace_empty (old new : string) :
  old <> "" -> replace old new "" = "".
Proof. destruct old; [congruence | reflexivity]. Qed.

(** A text without the token is left as it is. *)
Lemma replace_absent (old new s : string) :
  old <> "" -> contains old s = false -> replace old new s = s.
Proof.
  intros Hold. induction s as [|c s IH]; intros H.
  - now apply replace_empty.
  - cbn [contains] in H. apply orb_false_iff in H. destruct H as [H1 H2].
    rewrite replace_miss by exact H1. now rewrite IH.
Qed.

End StringFacts.

(** ** Intent classifier *)

Section Classifier.

Lemma first_match_in (table : list (string * list string)) (s : string) :
  In (first_match table s) (map fst table ++ ["other"])%list.
Proof.
  induction table as [|[name kws] rest IH]; simpl; [now left|].
  destruct (any_in kws s); [now left | now right].
Qed.

Lemma first_match_none (table : list (string * list string)) (s : string) :
  ~ In "other" (map fst table) ->
  first_match table s = "other" <->
  forall name kws, In (name, kws) table -> any_in kws s = false.
Proof.
  induction table as [|[n0 k0] rest IH]; simpl; intros Hno.
  - split; [intros _ ? ? [] | reflexivity].
  - specialize (IH (fun H => Hno (or_intror H))).
    destruct (any_in k0 s) eqn:E0; split.
    + intros ->. exfalso. apply Hno. now left.
    + intros H. rewrite (H n0 k0) in E0; [discriminate | now left].
    + intros H name kws [[= <- <-]|Hin]; [exact E0|].
      apply (proj1 IH H name kws Hin).
    + intros H. apply IH. intros name kws Hin. apply (H name kws).
      now right.
Qed.

Lemma first_match_index (table : list (string * list string)) (s : string) :
  NoDup (map fst table) -> ~ In "other" (map fst table) ->
  forall i name kws, nth_error table i = Some (name, kws) ->
  first_match table s = name <->
  any_in kws s = true /\
  forall j name' kws', j < i -> nth_error table j = Some (name', kws') ->
                       any_in kws' s = false.
Proof.
  induction table as [|[n0 k0] rest IH]; intros Hnd Hno i name kws Hi.
  - now destruct i.
  - simpl in Hnd, Hno. inversion Hnd as [|? ? Hfresh Hnd']; subst.
    assert (Hrest : first_match rest s <> n0).
    { intros Heq. pose proof (first_match_in rest s) as Hin.
      rewrite Heq in Hin. apply in_app_or in Hin.
      destruct Hin as [Hin|[Hin|[]]]; [now apply Hfresh | apply Hno; now left]. }
    destruct i as [|i]; simpl in Hi.
    + injection Hi as <- <-. simpl.
      destruct (any_in k0 s) eqn:E0; split.
      * intros _. split; [reflexivity | intros; lia].
      * reflexivity.
      * intros H. contradiction.
      * intros [H _]. discriminate.
    + assert (Hname : n0 <> name).
      { intros ->. apply Hfresh. apply nth_error_In in Hi.
        now apply (in_map fst) in Hi. }
      specialize (IH Hnd' (fun H => Hno (or_intror H)) i name kws Hi).
      simpl. destruct (any_in k0 s) eqn:E0; split.
      * intros H. contradiction.
      * intros [_ H]. specialize (H 0 n0 k0 (Nat.lt_0_succ i) eq_refl).
        congruence.
      * intros H. apply IH in H. destruct H as [H1 H2]. split; [exact H1|].
        intros [|j] name' kws' Hlt Hj; simpl in Hj.
        -- now injection Hj as <- <-.
        -- apply (H2 j name' kws'); [lia | exact Hj].
      * intros [H1 H2]. apply IH. split; [exact H1|].
        intros j name' kws' Hlt Hj. apply (H2 (S j) name' kws'); [lia|exact Hj].
Qed.

(** Lowercasing before the call, as the dispatcher does, changes nothing. *)
Lemma determine_intent_lowered (user_input : string) :
  _determine_intent (lower user_input) = _determine_intent user_input.
Proof. unfold _determine_intent. now rewrite lower_idem. Qed.

Lemma intent_names_distinct : NoDup (map fst intent_table).
Proof.
  simpl. repeat constructor; simpl; intros H;
    repeat (destruct H as [H|H]; [discriminate H|]); exact H.
Qed.

Lemma intent_names_proper : ~ In "other" (map fst intent_table).
Proof.
  simpl. intros H. repeat (destruct H as [H|H]; [discriminate H|]). exact H.
Qed.

Lemma any_in_lower (kws : list string) (kw s : string) :
  In kw kws -> lower kw = kw -> contains kw s = true ->
  any_in kws (lower s) = true.
Proof.
  intros Hin Hkw Hc. apply existsb_exists. exists kw. split; [exact Hin|].
  rewrite <- Hkw. now apply contains_lower.
Qed.

Lemma add_keywords_lowered : forall kw, In kw add_keywords -> lower kw = kw.
Proof.
  intros kw H. simpl in H.
  repeat (destruct H as [<-|H]; [reflexivity|]). contradiction.
Qed.

(** C1: [_determine_intent] answers one of the six intents; it is the
    first-match reading of the priority table Add, List, Complete, Delete,
    Update over the lowercased text; a set is chosen exactly when one of
    its keywords occurs and no keyword of an earlier set does, and "other"
    exactly when no keyword occurs at all; a text in which an Add keyword
    occurs is classified as Add whatever else occurs in it. *)
Theorem determine_intent_priority (user_input : string) :
  In (_determine_intent user_input)
     ["add"; "list"; "complete"; "delete"; "update"; "other"]
  /\ _determine_intent user_input = classify_spec user_input
  /\ (forall i name kws, nth_error intent_table i = Some (name, kws) ->
        _determine_intent user_input = name <->
        any_in kws (lower user_input) = true /\
        forall j name' kws', j < i ->
          nth_error intent_table j = Some (name', kws') ->
          any_in kws' (lower user_input) = false)
  /\ (_determine_intent user_input = "other" <->
      forall name kws, In (name, kws) intent_table ->
                       any_in kws (lower user_input) = false)
  /\ (forall ka kd, In ka add_keywords -> In kd delete_keywords ->
        contains ka user_input = true -> contains kd user_input = true ->
        _determine_intent user_input = "add").
Proof.
  assert (Hspec : _determine_intent user_input = classify_spec user_input)
    by reflexivity.
  split; [|split; [exact Hspec|split; [|split]]].
  - rewrite Hspec. exact (first_match_in intent_table (lower user_input)).
  - intros i name kws Hi. rewrite Hspec.
    now apply first_match_index;
      [apply intent_names_distinct | apply intent_names_proper |].
  - rewrite Hspec. apply first_match_none, intent_names_proper.
  - intros ka kd Hka _ Hc _. unfold _determine_intent.
    now rewrite (any_in_lower add_keywords ka user_input Hka
                   (add_keywords_lowered ka Hka) Hc).
Qed.

End Classifier.

(** ** Title extraction *)

Section Titles.

Lemma length_append (a b : string) : length (a ++ b) = length a + length b.
Proof. induction a; simpl; congruence. Qed.

Lemma replace_removed (token : string) :
  token <> "" -> forall s, removed token s (replace token "" s).
Proof.
  intros Htok s.
  remember (length s) as n eqn:Hn. revert s Hn.
  induction n as [n IH] using lt_wf_ind. intros s Hn.
  destruct s as [|c s].
  - rewrite replace_empty by exact Htok. constructor.
  - destruct (prefix token (String c s)) eqn:Hp.
    + destruct (prefix_split _ _ Hp) as [rest Hs]. rewrite Hs.
      rewrite replace_hit by exact Htok.
      apply removed_cut with (rest := rest); [reflexivity | exact Htok |].
      apply (IH (length rest)); [|reflexivity].
      subst n. rewrite Hs, length_append.
      destruct token; [congruence | simpl; lia].
    + rewrite replace_miss by exact Hp. apply removed_keep; [exact Hp|].
      apply (IH (length s)); [subst n; simpl; lia | reflexivity].
Qed.

Lemma removed_functional (token s x y : string) :
  removed token s x -> removed token s y -> x = y.
Proof.
  intros Hx. revert y.
  induction Hx as [|c s s' Hp Hx IH|s rest s' Hs Hne Hx IH]; intros y Hy.
  - inversion Hy as [| |s0 rest0 s0' Hs0 Hne0 Hy0]; [reflexivity|].
    destruct token; [congruence | discriminate].
  - inversion Hy as [|c0 s0 s0' Hp0 Hy0 [Ec Es] Ey
                     |s0 rest0 s0' Hs0 Hne0 Hy0 Es Ey].
    + f_equal. now apply IH.
    + rewrite Hs0, prefix_app in Hp. discriminate.
  - inversion Hy as [Es Ey|c0 s0 s0' Hp0 Hy0 Es Ey
                     |s0 rest0 s0' Hs0 Hne0 Hy0 Es Ey].
    + rewrite <- Es in Hs. destruct token; [congruence | discriminate].
    + rewrite Es, Hs, prefix_app in Hp0. discriminate.
    + rewrite Hs in Hs0. apply append_inv_head in Hs0. subst rest0.
      now apply IH.
Qed.

Lemma fillers_fold (tokens : list string) :
  (forall t, In t tokens -> t <> "") ->
  forall s, fillers_removed tokens s (fold_left strip_token tokens s).
Proof.
  induction tokens as [|t tokens IH]; intros Hne s; simpl.
  - constructor.
  - apply fillers_step with (s1 := replace t "" s).
    + apply replace_removed, Hne. now left.
    + apply IH. intros t' Ht'. apply Hne. now right.
Qed.

Lemma fillers_functional (tokens : list string) (s x y : string) :
  fillers_removed tokens s x -> fillers_removed tokens s y -> x = y.
Proof.
  intros Hx. revert y.
  induction Hx as [|t tokens s s1 s2 Hr Hx IH]; intros y Hy.
  - now inversion Hy.
  - inversion Hy as [|t0 tokens0 s0 s1' s2' Hr' Hy']; subst.
    rewrite (removed_functional _ _ _ _ Hr Hr') in IH. now apply IH.
Qed.

Lemma fold_strip_token_stripped (tokens : list string) (s : string) :
  tokens <> [] ->
  strip (fold_left strip_token tokens s) = fold_left strip_token tokens s.
Proof.
  revert s. induction tokens as [|t tokens IH]; intros s Hne; [congruence|].
  simpl. destruct tokens as [|t' tokens].
  - simpl. apply strip_idem.
  - apply IH. discriminate.
Qed.

(** C2: the title computed by [_extract_todo_info] is the one, and the only
    one, the specification describes: the lowercased text with the fillers
    add, create, new, remember, remind, me, to removed in that order
    wherever they occur, trimmed after each removal.  "remind me to buy
    milk" gives "buy milk", and "add tomorrow's meeting" loses the "to" of
    "tomorrow's" (and the "me" of "meeting"). *)
Theorem extract_title_spec (text : string) :
  title_spec text (extract_title text)
  /\ (forall title, title_spec text title -> title = extract_title text)
  /\ extract_title text
     = fold_left (fun acc token => strip (replace token "" acc))
                 filler_tokens (lower text)
  /\ info_description (_extract_todo_info text) = ""
  /\ extract_title "remind me to buy milk" = "buy milk"
  /\ extract_title "add tomorrow's meeting" = "morrow's eting".
Proof.
  assert (Hfold : extract_title text
                  = fold_left strip_token filler_tokens (lower text)).
  { unfold extract_title, _extract_todo_info. cbn [info_title].
    apply fold_strip_token_stripped. discriminate. }
  assert (Hspec : title_spec text (extract_title text)).
  { rewrite Hfold. apply fillers_fold. intros t Ht. simpl in Ht.
    repeat (destruct Ht as [<-|Ht]; [discriminate|]). contradiction. }
  split; [exact Hspec|]. split.
  - intros title Ht. exact (fillers_functional _ _ _ _ Ht Hspec).
  - split; [exact Hfold|]. repeat split; reflexivity.
Qed.

End Titles.

(** ** Running programs *)

Section RunFacts.
Context {W : Type} (E : env W).

Lemma run_perform {X : Type} (c : call X) (w : W) :
  run E (perform c) w = let (o, w1) := E _ c w in (o, w1, [Entry c o]).
Proof.
  unfold perform. cbn [run]. destruct (E X c w) as [[x|e] w1]; reflexivity.
Qed.

Lemma run_bind {A B : Type} (p : prog A) (f : A -> prog B) (w : W) :
  run E (bind p f) w =
  let '(r, w1, log1) := run E p w in
  match r with
  | Val a => let '(r2, w2, log2) := run E (f a) w1 in
             (r2, w2, (log1 ++ log2)%list)
  | Exn e => (Exn e, w1, log1)
  end.
Proof.
  revert w. induction p as [a|e|X c k IH]; intros w; cbn [bind run].
  - now destruct (run E (f a) w) as [[r2 w2] log2].
  - reflexivity.
  - destruct (E X c w) as [o w1]. rewrite IH.
    destruct (run E (k o) w1) as [[[a|e] w2] log1]; [|reflexivity].
    now destruct (run E (f a) w2) as [[r3 w3] log3].
Qed.

Lemma run_try_except {A : Type} (p : prog A) (h : string -> prog A) (w : W) :
  run E (try_except p h) w =
  let '(r, w1, log1) := run E p w in
  match r with
  | Val a => (Val a, w1, log1)
  | Exn e => let '(r2, w2, log2) := run E (h e) w1 in
             (r2, w2, (log1 ++ log2)%list)
  end.
Proof.
  revert w. induction p as [a|e|X c k IH]; intros w; cbn [try_except run].
  - reflexivity.
  - now destruct (run E (h e) w) as [[r2 w2] log2].
  - destruct (E X c w) as [o w1]. rewrite IH.
    destruct (run E (k o) w1) as [[[a|e] w2] log1]; [reflexivity|].
    now destruct (run E (h e) w2) as [[r3 w3] log3].
Qed.

(** What the [try] of the dispatcher yields is never an exception. *)
Lemma guarded_dispatch_run (intent user_input : string)
    (conversation : Conversation.t) (user : User) (w : W) :
  run E (guarded_dispatch intent user_input conversation user) w =
  let '(r, w1, log1) :=
    run E (dispatch intent user_input conversation user) w in
  (Val match r with Val a => a | Exn e => apology ++ e end, w1, log1).
Proof.
  unfold guarded_dispatch. rewrite run_try_except.
  destruct (run E (dispatch intent user_input conversation user) w)
    as [[[a|e] w1] log1]; [reflexivity|].
  cbn [run]. now rewrite app_nil_r.
Qed.

Lemma current_conversation_run (user : User) (w : W) :
  run E (current_conversation user) w =
  let (o, w1) := E _ (get_user_conversations user 1 1) w in
  let looked := Entry (get_user_conversations user 1 1) o in
  match o with
  | Exn e => (Exn e, w1, [looked])
  | Val (conversation :: _, _) => (Val conversation, w1, [looked])
  | Val ([], _) =>
      let (o', w2) := E _ (create_conversation user) w1 in
      (o', w2, [looked; Entry (create_conversation user) o'])
  end.
Proof.
  unfold current_conversation. rewrite run_bind, run_perform.
  destruct (E _ (get_user_conversations user 1 1) w)
    as [[[[|conversation rest] total]|e] w1]; try reflexivity.
  rewrite run_perform.
  now destruct (E _ (create_conversation user) w1) as [o' w2].
Qed.

Lemma run_bind_assoc {A B C : Type} (p : prog A) (f : A -> prog B)
    (g : B -> prog C) (w : W) :
  run E (bind (bind p f) g) w = run E (bind p (fun a => bind (f a) g)) w.
Proof.
  revert w. induction p as [a|e|X c k IH]; intros w; cbn [bind run].
  - reflexivity.
  - reflexivity.
  - destruct (E X c w) as [o w1]. now rewrite IH.
Qed.

(** A turn, phase by phase. *)
Lemma turn_run (user_input : string) (user : User)
    (body : Conversation.t -> prog string) (w : W) :
  run E (turn user_input user body) w =
  let '(r0, w1, log0) := run E (current_conversation user) w in
  match r0 with
  | Exn e => (Exn e, w1, log0)
  | Val conversation =>
      let (o1, w2) :=
        E _ (create_message conversation "user" user_input) w1 in
      let asked :=
        Entry (create_message conversation "user" user_input) o1 in
      match o1 with
      | Exn e => (Exn e, w2, (log0 ++ [asked])%list)
      | Val _ =>
          let '(r3, w3, log3) := run E (body conversation) w2 in
          match r3 with
          | Exn e => (Exn e, w3, (log0 ++ asked :: log3)%list)
          | Val response =>
              let (o4, w4) :=
                E _ (create_message conversation "assistant" response) w3 in
              (match o4 with Val _ => Val response | Exn e => Exn e end,
               w4,
               (log0 ++ asked :: log3 ++
                  [Entry (create_message conversation "assistant" response)
                         o4])%list)
          end
      end
  end.
Proof.
  unfold turn. rewrite run_bind.
  destruct (run E (current_conversation user) w)
    as [[[conversation|e] w1] log0]; [|reflexivity].
  rewrite run_bind, run_perform.
  destruct (E _ (create_message conversation "user" user_input) w1)
    as [[m|e] w2]; [|reflexivity].
  rewrite run_bind.
  destruct (run E (body conversation) w2)
    as [[[response|e] w3] log3]; [|reflexivity].
  rewrite run_bind, run_perform.
  destruct (E _ (create_message conversation "assistant" response) w3)
    as [[m'|e] w4]; cbn [run]; [|reflexivity].
  now rewrite app_nil_r.
Qed.

Lemma process_command_is_turn (user_input : string) (user : User) :
  process_natural_language_todo_command user_input user =
  turn user_input user
    (fun conversation =>
       guarded_dispatch (_determine_intent (lower user_input)) user_input
         conversation user).
Proof. reflexivity. Qed.

Lemma process_chat_is_turn (user_input : string) (user : User) (w : W) :
  run E (process_chat user_input user) w =
  run E (turn user_input user
           (fun conversation =>
              _handle_general_query user_input conversation user)) w.
Proof.
  unfold process_chat, turn. rewrite !(run_bind (current_conversation user)).
  destruct (run E (current_conversation user) w)
    as [[[conversation|e] w1] log0]; [|reflexivity].
  rewrite !(run_bind (perform (create_message conversation "user" _))).
  destruct (run E (perform (create_message conversation "user"
                              user_input)) w1)
    as [[[m|e] w2] log1]; [|reflexivity].
  unfold _handle_general_query. rewrite run_bind_assoc.
  rewrite !(run_bind (perform (get_messages_by_conversation _ _ _ _))).
  destruct (run E (perform (get_messages_by_conversation conversation user
                              1 10)) w2)
    as [[[[recent total]|e] w3] log2]; reflexivity.
Qed.

Lemma ask_model_run (recent_messages : list Message.t)
    (user_input : string) (w : W) :
  run E (ask_model recent_messages user_input) w =
  let sent := send_message (map format_message recent_messages)
                           user_input in
  let (o, w1) := E _ sent w in
  (Val match o with Val text => text | Exn e => apology ++ e end,
   w1, [Entry sent o]).
Proof.
  unfold ask_model, formatted_history. rewrite removelast_last.
  rewrite run_try_except, run_perform.
  now destruct (E _ (send_message _ user_input) w) as [[text|e] w1].
Qed.

Lemma general_query_run (user_input : string)
    (conversation : Conversation.t) (user : User) (w : W) :
  run E (_handle_general_query user_input conversation user) w =
  let listed := get_messages_by_conversation conversation user 1 10 in
  let (o, w1) := E _ listed w in
  match o with
  | Exn e => (Exn e, w1, [Entry listed o])
  | Val (recent_messages, _) =>
      let sent := send_message (map format_message recent_messages)
                               user_input in
      let (o', w2) := E _ sent w1 in
      (Val match o' with Val text => text | Exn e => apology ++ e end,
       w2, [Entry listed o; Entry sent o'])
  end.
Proof.
  unfold _handle_general_query. rewrite run_bind, run_perform.
  destruct (E _ (get_messages_by_conversation conversation user 1 10) w)
    as [[[recent total]|e] w1]; [|reflexivity].
  rewrite ask_model_run. cbv zeta.
  now destruct (E _ (send_message _ user_input) w1) as [o' w2].
Qed.

(** *** Programs that avoid a kind of call *)

Variable kind : forall X : Type, call X -> bool.

Lemma avoids_perform {X : Type} (c : call X) :
  kind X c = false -> avoids kind (perform c).
Proof. intros H. constructor; [exact H|]. intros [x|e]; constructor. Qed.

Lemma avoids_bind {A B : Type} (p : prog A) (f : A -> prog B) :
  avoids kind p -> (forall a, avoids kind (f a)) -> avoids kind (bind p f).
Proof.
  intros Hp Hf. induction Hp as [a|e|X c k Hc Hk IH]; cbn [bind].
  - apply Hf.
  - constructor.
  - constructor; [exact Hc | exact IH].
Qed.

Lemma avoids_try_except {A : Type} (p : prog A) (h : string -> prog A) :
  avoids kind p -> (forall e, avoids kind (h e)) ->
  avoids kind (try_except p h).
Proof.
  intros Hp Hh. induction Hp as [a|e|X c k Hc Hk IH]; cbn [try_except].
  - constructor.
  - apply Hh.
  - constructor; [exact Hc | exact IH].
Qed.

Lemma avoids_run {A : Type} (p : prog A) :
  avoids kind p -> forall w, filter (of_kind kind) (calls E p w) = [].
Proof.
  unfold calls. intros Hp. induction Hp as [a|e|X c k Hc Hk IH]; intros w.
  - reflexivity.
  - reflexivity.
  - cbn [run]. destruct (E X c w) as [o w1]. specialize (IH o w1).
    destruct (run E (k o) w1) as [[r w2] log]. cbn [snd filter of_kind] in *.
    now rewrite Hc.
Qed.

End RunFacts.

(** Decides [avoids] goals over programs built from [bind], [try_except]
    and [perform]. *)
Ltac quiet :=
  repeat first
    [ apply avoids_bind | apply avoids_try_except
    | apply avoids_perform; reflexivity
    | apply avoids_ret | apply avoids_raise
    | intros [? ?] | intro
    | match goal with
      | |- avoids _ (match ?x with _ => _ end) => destruct x
      | |- avoids _ (if ?x then _ else _) => destruct x
      end ].

Lemma dispatch_logs_nothing (intent user_input : string)
    (conversation : Conversation.t) (user : User) :
  avoids is_create_message (dispatch intent user_input conversation user).
Proof.
  unfold dispatch, _handle_add_todo, _handle_list_todos,
    _handle_complete_todo, _handle_delete_todo, _handle_update_todo,
    _handle_general_query, _extract_todo_id, ask_model.
  quiet.
Qed.

(** ** The dispatcher *)

Section Dispatcher.
Context {W : Type} (E : env W).

Lemma current_conversation_logs_nothing (user : User) :
  avoids is_create_message (current_conversation user).
Proof. unfold current_conversation. quiet. Qed.

Lemma current_conversation_resolved (user : User) (w w1 : W)
    (conversation : Conversation.t) (log : list entry) :
  run E (current_conversation user) w = (Val conversation, w1, log) ->
  resolved user conversation log.
Proof.
  rewrite current_conversation_run.
  destruct (E _ (get_user_conversations user 1 1) w)
    as [[[[|c rest] total]|e] w0].
  - destruct (E _ (create_conversation user) w0) as [[c|e] w2];
      intros [= <- <- <-]. right. now exists total.
  - intros [= <- <- <-]. left. now exists rest, total.
  - discriminate.
Qed.

Lemma turn_log (body : Conversation.t -> prog string)
    (user_input : string) (user : User) (w : W) (response : string) :
  (forall conversation, avoids is_create_message (body conversation)) ->
  result E (turn user_input user body) w = Val response ->
  exists conversation m1 m2 before during,
    let asked :=
      Entry (create_message conversation "user" user_input) (Val m1) in
    let answered :=
      Entry (create_message conversation "assistant" response) (Val m2) in
    calls E (turn user_input user body) w
    = (before ++ asked :: during ++ [answered])%list
    /\ resolved user conversation before
    /\ filter (of_kind is_create_message) before = []
    /\ filter (of_kind is_create_message) during = []
    /\ filter (of_kind is_create_message)
         (calls E (turn user_input user body) w) = [asked; answered].
Proof.
  intros Hquiet. unfold result, calls. rewrite turn_run.
  destruct (run E (current_conversation user) w)
    as [[[conversation|e] w1] log0] eqn:H0; [|discriminate].
  destruct (E _ (create_message conversation "user" user_input) w1)
    as [[m1|e] w2]; [|discriminate].
  destruct (run E (body conversation) w2)
    as [[[answer|e] w3] log3] eqn:H3; [|discriminate].
  destruct (E _ (create_message conversation "assistant" answer) w3)
    as [[m2|e] w4]; [|discriminate].
  cbn [fst snd]. intros [= <-].
  assert (Hbefore : filter (of_kind is_create_message) log0 = []).
  { pose proof (avoids_run E is_create_message _
                  (current_conversation_logs_nothing user) w) as H.
    unfold calls in H. now rewrite H0 in H. }
  assert (Hduring : filter (of_kind is_create_message) log3 = []).
  { pose proof (avoids_run E is_create_message _ (Hquiet conversation) w2)
      as H.
    unfold calls in H. now rewrite H3 in H. }
  exists conversation, m1, m2, log0, log3. cbv zeta.
  split; [reflexivity|]. split; [exact (current_conversation_resolved _ _ _ _ _ H0)|].
  split; [exact Hbefore|]. split; [exact Hduring|].
  rewrite filter_app. cbn [filter of_kind is_create_message].
  rewrite filter_app, Hbefore, Hduring. reflexivity.
Qed.

End Dispatcher.

(** C3: when the handler chosen for the input raises, the [try] of the
    dispatcher turns the exception into the apology followed by its text;
    that string is what is handed to the message store as the assistant
    message and, the store accepting it, what the call returns.  The user
    message logged before stays in the log of the turn: the only writes to
    the message store are the user message and the apology. *)
Theorem handler_exception_becomes_apology {W : Type} (E : env W)
    (user_input : string) (user : User) (w w1 w2 w3 : W)
    (conversation : Conversation.t) (m : Message.t) (e : string)
    (log1 log3 : list entry) :
  run E (current_conversation user) w = (Val conversation, w1, log1) ->
  E _ (create_message conversation "user" user_input) w1 = (Val m, w2) ->
  run E (dispatch (_determine_intent (lower user_input)) user_input
           conversation user) w2 = (Exn e, w3, log3) ->
  let response := apology ++ e in
  let answer := create_message conversation "assistant" response in
  let asked :=
    Entry (create_message conversation "user" user_input) (Val m) in
  let answered := Entry answer (fst (E _ answer w3)) in
  run E (guarded_dispatch (_determine_intent (lower user_input)) user_input
           conversation user) w2 = (Val response, w3, log3)
  /\ calls E (process_natural_language_todo_command user_input user) w
     = (log1 ++ asked :: log3 ++ [answered])%list
  /\ filter (of_kind is_create_message)
       (calls E (process_natural_language_todo_command user_input user) w)
     = [asked; answered]
  /\ final E (process_natural_language_todo_command user_input user) w
     = snd (E _ answer w3)
  /\ (forall m', fst (E _ answer w3) = Val m' ->
      result E (process_natural_language_todo_command user_input user) w
      = Val response).
Proof.
  intros H0 H1 H3 response answer asked answered.
  assert (Hg : run E (guarded_dispatch (_determine_intent (lower user_input))
                        user_input conversation user) w2
               = (Val response, w3, log3)).
  { rewrite guarded_dispatch_run, H3. reflexivity. }
  assert (Hrun : run E (process_natural_language_todo_command user_input
                          user) w
                 = (match fst (E _ answer w3) with
                    | Val _ => Val response
                    | Exn e' => Exn e'
                    end, snd (E _ answer w3),
                    (log1 ++ asked :: log3 ++ [answered])%list)).
  { rewrite process_command_is_turn, turn_run, H0, H1, Hg.
    subst answered answer. now destruct (E _ _ w3) as [o4 w4]. }
  split; [exact Hg|]. unfold calls, final, result. rewrite Hrun.
  cbn [fst snd]. split; [reflexivity|]. split; [|split; [reflexivity|]].
  - assert (Hb : filter (of_kind is_create_message) log1 = []).
    { pose proof (avoids_run E is_create_message _
                    (current_conversation_logs_nothing user) w) as H.
      unfold calls in H. now rewrite H0 in H. }
    assert (Hd : filter (of_kind is_create_message) log3 = []).
    { pose proof (avoids_run E is_create_message _
                    (dispatch_logs_nothing (_determine_intent
                       (lower user_input)) user_input conversation user) w2)
        as H.
      unfold calls in H. now rewrite H3 in H. }
    rewrite filter_app. cbn [filter of_kind is_create_message].
    rewrite filter_app, Hb, Hd. reflexivity.
  - intros m' ->. reflexivity.
Qed.

(** C4: a call of either entry point that returns [response] has found
    its conversation (the most recent one, or a new one), has written the
    user input to it with role "user" before anything the answer needed,
    and the returned string with role "assistant" after; these are the
    two writes to the message store of the turn, in this order. *)
Theorem turn_logs_input_then_answer {W : Type} (E : env W)
    (entry_point : string -> User -> prog string)
    (user_input : string) (user : User) (w : W) (response : string) :
  entry_point = process_natural_language_todo_command
  \/ entry_point = process_chat ->
  result E (entry_point user_input user) w = Val response ->
  exists conversation m1 m2 before during,
    let asked :=
      Entry (create_message conversation "user" user_input) (Val m1) in
    let answered :=
      Entry (create_message conversation "assistant" response) (Val m2) in
    calls E (entry_point user_input user) w
    = (before ++ asked :: during ++ [answered])%list
    /\ resolved user conversation before
    /\ filter (of_kind is_create_message) before = []
    /\ filter (of_kind is_create_message) during = []
    /\ filter (of_kind is_create_message)
         (calls E (entry_point user_input user) w) = [asked; answered].
Proof.
  intros [-> | ->].
  - rewrite process_command_is_turn. apply turn_log.
    intros conversation. unfold guarded_dispatch.
    apply avoids_try_except; [apply dispatch_logs_nothing | intro; constructor].
  - unfold result, calls. rewrite process_chat_is_turn.
    apply (turn_log E (fun conversation =>
                         _handle_general_query user_input conversation user)).
    intros conversation. unfold _handle_general_query, ask_model. quiet.
Qed.

(** C10: the [try] covers the handlers only.  An exception raised while
    the conversation is looked up or created, while the user message is
    logged, or while the answer is logged, is the outcome of the call: no
    apology is returned in its place. *)
Theorem boundary_failure_propagates {W : Type} (E : env W)
    (user_input : string) (user : User) (w : W) (e : string) :
  boundary_failure E user_input user w e ->
  result E (process_natural_language_todo_command user_input user) w = Exn e
  /\ forall text,
      result E (process_natural_language_todo_command user_input user) w
      <> Val text.
Proof.
  intros H.
  assert (Hr : result E (process_natural_language_todo_command user_input
                           user) w = Exn e).
  { unfold result. rewrite process_command_is_turn, turn_run.
    destruct H as [w1 H0|total w1 w2 H0 H1|conversation w1 w2 log1 H0 H1
                  |conversation m response w1 w2 w3 w4 log1 log3 H0 H1 H3 H4].
    - rewrite current_conversation_run, H0. reflexivity.
    - rewrite current_conversation_run, H0, H1. reflexivity.
    - rewrite H0, H1. reflexivity.
    - rewrite H0, H1, H3, H4. reflexivity. }
  split; [exact Hr|]. intros text. rewrite Hr. discriminate.
Qed.

(** C5: for an input classified as Other, the history handed to the model
    is the page of messages the store lists after the user message has been
    logged, item by item with roles and order kept, and nothing is taken out
    of it: when the page holds the message just logged, the history holds
    the current input, which is also sent as the live message.  The answer
    of the model is returned as it is. *)
Theorem general_query_history_is_listing {W : Type} (E : env W)
    (user_input : string) (user : User) (w w1 w2 w3 : W)
    (conversation : Conversation.t) (m : Message.t) (log1 : list entry)
    (recent_messages : list Message.t) (total : nat) :
  run E (current_conversation user) w = (Val conversation, w1, log1) ->
  E _ (create_message conversation "user" user_input) w1 = (Val m, w2) ->
  _determine_intent (lower user_input) = "other" ->
  E _ (get_messages_by_conversation conversation user 1 10) w2
  = (Val (recent_messages, total), w3) ->
  let history := map format_message recent_messages in
  let sent := send_message history user_input in
  In (Entry sent (fst (E _ sent w3)))
     (calls E (process_natural_language_todo_command user_input user) w)
  /\ history
     = map (fun msg => {| h_role := Message.role msg;
                          h_parts := [Message.content msg] |})
           recent_messages
  /\ (forall text, fst (E _ sent w3) = Val text ->
      result E (_handle_general_query user_input conversation user) w2
      = Val text)
  /\ (In m recent_messages -> Message.role m = "user" ->
      Message.content m = user_input ->
      In {| h_role := "user"; h_parts := [user_input] |} history).
Proof.
  intros H0 H1 Hother H2 history sent.
  assert (Hq : run E (_handle_general_query user_input conversation user) w2
               = (Val match fst (E _ sent w3) with
                      | Val text => text
                      | Exn e => apology ++ e
                      end, snd (E _ sent w3),
                  [Entry (get_messages_by_conversation conversation user 1 10)
                         (Val (recent_messages, total));
                   Entry sent (fst (E _ sent w3))])).
  { rewrite general_query_run. cbv zeta. rewrite H2. fold history. fold sent.
    now destruct (E _ sent w3) as [o' w4]. }
  split; [|split; [reflexivity|split]].
  - unfold calls. rewrite process_command_is_turn, turn_run, H0, H1.
    rewrite guarded_dispatch_run, Hother.
    change (dispatch "other" user_input conversation user)
      with (_handle_general_query user_input conversation user).
    rewrite Hq.
    destruct (E _ (create_message conversation "assistant" _) _) as [o4 w5].
    cbn [snd]. apply in_or_app. right. right. right. now left.
  - intros text Ht. unfold result. now rewrite Hq, Ht.
  - intros Hin Hrole Hcontent. subst history.
    apply (in_map format_message) in Hin.
    unfold format_message in Hin at 1. now rewrite Hrole, Hcontent in Hin.
Qed.

(** ** The handlers *)

Lemma str_inj (a b : nat) : str a = str b -> a = b.
Proof.
  unfold str. intros H. apply Unsigned.to_uint_inj.
  apply (f_equal NilEmpty.uint_of_string) in H.
  rewrite !NilEmpty.usu in H. now injection H.
Qed.

Lemma str_nonempty (n : nat) : str n <> "".
Proof.
  unfold str. intros H.
  assert (Hnil : Nat.to_uint n = Decimal.Nil)
    by (destruct (Nat.to_uint n); simpl in H; congruence).
  pose proof (Unsigned.of_to n) as Hn. rewrite Hnil in Hn. simpl in Hn.
  subst n. discriminate Hnil.
Qed.

Section Handlers.
Context {W : Type} (E : env W).

Lemma extract_todo_id_run (user_input : string) (user : User) (w : W) :
  run E (_extract_todo_id user_input user) w =
  let listed := get_user_todos user None 1 1 in
  let (o, w1) := E _ listed w in
  (match o with
   | Val (todo :: _, _) => Val (str (Todo.id todo))
   | Val ([], _) => Val ""
   | Exn e => Exn e
   end, w1, [Entry listed o]).
Proof.
  unfold _extract_todo_id. rewrite run_bind, run_perform.
  now destruct (E _ (get_user_todos user None 1 1) w)
    as [[[[|todo rest] total]|e] w1].
Qed.

Lemma list_todos_run (user_input : string) (user : User) (w : W) :
  run E (_handle_list_todos user_input user) w =
  let listed := get_user_todos user (status_filter user_input) 1 20 in
  let (o, w1) := E _ listed w in
  (match o with
   | Val (todos, _) => Val (list_response (status_filter user_input) todos)
   | Exn e => Exn e
   end, w1, [Entry listed o]).
Proof.
  unfold _handle_list_todos. rewrite run_bind, run_perform.
  now destruct (E _ (get_user_todos user _ 1 20) w)
    as [[[todos total]|e] w1].
Qed.

Lemma complete_todo_run (user_input : string) (user : User) (w : W) :
  run E (_handle_complete_todo user_input user) w =
  let listed := get_user_todos user None 1 1 in
  let (o, w1) := E _ listed w in
  match o with
  | Exn e => (Exn e, w1, [Entry listed o])
  | Val ([], _) =>
      (Val "I couldn't find a specific todo to mark as complete. Please specify which todo you want to complete.",
       w1, [Entry listed o])
  | Val (todo :: _, _) =>
      let toggled := toggle_todo_completion (str (Todo.id todo)) user in
      let (o', w2) := E _ toggled w1 in
      (match o' with
       | Val todo' =>
           Val ("I've marked '" ++ Todo.title todo' ++ "' as "
                ++ (if Todo.is_completed todo' then "completed"
                    else "marked as incomplete") ++ ".")
       | Exn e => Exn e
       end, w2, [Entry listed o; Entry toggled o'])
  end.
Proof.
  unfold _handle_complete_todo. rewrite run_bind, extract_todo_id_run.
  cbv zeta. destruct (E _ (get_user_todos user None 1 1) w)
    as [[[[|todo rest] total]|e] w1]; try reflexivity.
  destruct (str (Todo.id todo)) as [|c s] eqn:Hid;
    [now apply str_nonempty in Hid|].
  rewrite run_bind, run_perform.
  now destruct (E _ (toggle_todo_completion (String c s) user) w1)
    as [[todo'|e] w2].
Qed.

Lemma delete_todo_run (user_input : string) (user : User) (w : W) :
  run E (_handle_delete_todo user_input user) w =
  let listed := get_user_todos user None 1 1 in
  let (o, w1) := E _ listed w in
  match o with
  | Exn e => (Exn e, w1, [Entry listed o])
  | Val ([], _) =>
      (Val "I couldn't find a specific todo to delete. Please specify which todo you want to delete.",
       w1, [Entry listed o])
  | Val (todo :: _, _) =>
      let deleted := delete_todo (str (Todo.id todo)) user in
      let (o', w2) := E _ deleted w1 in
      (match o' with
       | Val true => Val "The todo has been deleted successfully."
       | Val false =>
           Val "I couldn't delete that todo. It may not exist or you may not have permission to delete it."
       | Exn e => Exn e
       end, w2, [Entry listed o; Entry deleted o'])
  end.
Proof.
  unfold _handle_delete_todo. rewrite run_bind, extract_todo_id_run.
  cbv zeta. destruct (E _ (get_user_todos user None 1 1) w)
    as [[[[|todo rest] total]|e] w1]; try reflexivity.
  destruct (str (Todo.id todo)) as [|c s] eqn:Hid;
    [now apply str_nonempty in Hid|].
  rewrite run_bind, run_perform.
  now destruct (E _ (delete_todo (String c s) user) w1)
    as [[[|]|e] w2].
Qed.

Lemma update_todo_run (user_input : string) (user : User) (w : W) :
  run E (_handle_update_todo user_input user) w =
  let listed := get_user_todos user None 1 1 in
  let new_title := update_new_title user_input in
  let (o, w1) := E _ listed w in
  match o with
  | Exn e => (Exn e, w1, [Entry listed o])
  | Val ([], _) =>
      (Val "You don't have any todos to update.", w1, [Entry listed o])
  | Val (todo :: _, _) =>
      if new_title =? ""
      then (Val "Please specify what you'd like to change the todo to.",
            w1, [Entry listed o])
      else
        let updated :=
          update_todo (str (Todo.id todo)) user
                      {| TodoUpdate.title := new_title |} in
        let (o', w2) := E _ updated w1 in
        (match o' with
         | Val todo' =>
             Val ("I've updated the todo to '" ++ Todo.title todo' ++ "'.")
         | Exn e => Exn e
         end, w2, [Entry listed o; Entry updated o'])
  end.
Proof.
  unfold _handle_update_todo. rewrite run_bind, run_perform.
  destruct (E _ (get_user_todos user None 1 1) w)
    as [[[[|todo rest] total]|e] w1]; try reflexivity.
  cbv zeta. destruct (update_new_title user_input) as [|c s]; [reflexivity|].
  cbn [String.eqb]. rewrite run_bind, run_perform.
  now destruct (E _ (update_todo _ user _) w1) as [[todo'|e] w2].
Qed.

End Handlers.

Lemma list_response_titles (filter : option bool) (todos : list Todo.t) :
  list_response filter todos =
  match map Todo.title todos with
  | [] => list_response filter []
  | titles =>
      match filter with
      | Some false => "Here are your pending todos:"
      | Some true => "Here are your completed todos:"
      | None => "Here are your todos:"
      end ++ nl ++ join nl (map (fun title => "- " ++ title) titles)
  end.
Proof.
  destruct todos as [|todo todos]; [reflexivity|].
  cbn [map]. unfold list_response. cbn [map]. rewrite map_map.
  now destruct filter as [[|]|].
Qed.

(** C6: the List handler asks for completed=false when the lowercased
    input contains "pending" or "incomplete", else for completed=true when
    it contains "completed" or "done", else for every todo; it asks for
    page 1 with limit 20; on an empty page it answers with the fixed
    sentence of the filter, otherwise with a heading and one "- title"
    line per todo, joined by newlines, in which nothing of a todo but its
    title appears. *)
Theorem list_todos_behaviour {W : Type} (E : env W) (user_input : string)
    (user : User) (w : W) :
  let lowered := lower user_input in
  let pending := contains "pending" lowered || contains "incomplete" lowered in
  let done := contains "completed" lowered || contains "done" lowered in
  let filter := status_filter user_input in
  let listed := get_user_todos user filter 1 20 in
  (filter = Some false <-> pending = true)
  /\ (filter = Some true <-> pending = false /\ done = true)
  /\ (filter = None <-> pending = false /\ done = false)
  /\ run E (_handle_list_todos user_input user) w
     = (let (o, w1) := E _ listed w in
        (match o with
         | Val (todos, _) => Val (list_response filter todos)
         | Exn e => Exn e
         end, w1, [Entry listed o]))
  /\ list_response (Some false) []
     = "You don't have any pending todos right now."
  /\ list_response (Some true) []
     = "You don't have any completed todos right now."
  /\ list_response None [] = "You don't have any todos right now."
  /\ (forall f todo todos,
        list_response f (todo :: todos)
        = match f with
          | Some false => "Here are your pending todos:"
          | Some true => "Here are your completed todos:"
          | None => "Here are your todos:"
          end ++ nl
          ++ join nl (map (fun t => "- " ++ Todo.title t) (todo :: todos)))
  /\ (forall f todos todos',
        map Todo.title todos = map Todo.title todos' ->
        list_response f todos = list_response f todos').
Proof.
  intros lowered pending done filter listed.
  assert (Hf : filter = if pending then Some false
                        else if done then Some true else None)
    by reflexivity.
  split; [|split; [|split]].
  - rewrite Hf. destruct pending, done; intuition congruence.
  - rewrite Hf. destruct pending, done; intuition congruence.
  - rewrite Hf. destruct pending, done; intuition congruence.
  - split; [apply list_todos_run|].
    repeat (split; [reflexivity|]). split.
    + intros [[|]|] todo todos; reflexivity.
    + intros f todos todos' H.
      now rewrite (list_response_titles f todos),
        (list_response_titles f todos'), H.
Qed.

(** C8: the Update handler lists page 1 with limit 1 itself; without a
    todo it answers with the fixed sentence; the new title is the input as
    typed with "update", then "change", then "modify" cut out, each in one
    left-to-right pass over the result of the one before, and trimmed; an empty title asks the user to
    specify; otherwise the store is asked to set the title of the listed
    todo and the answer quotes the title of the todo it returns.  Letters
    are compared as typed: a text without the three lowercase tokens is
    only trimmed. *)
Theorem update_todo_behaviour {W : Type} (E : env W) (user_input : string)
    (user : User) (w : W) :
  let listed := get_user_todos user None 1 1 in
  let new_title := update_new_title user_input in
  run E (_handle_update_todo user_input user) w
  = (let (o, w1) := E _ listed w in
     match o with
     | Exn e => (Exn e, w1, [Entry listed o])
     | Val ([], _) =>
         (Val "You don't have any todos to update.", w1, [Entry listed o])
     | Val (todo :: _, _) =>
         if new_title =? ""
         then (Val "Please specify what you'd like to change the todo to.",
               w1, [Entry listed o])
         else
           let updated :=
             update_todo (str (Todo.id todo)) user
                         {| TodoUpdate.title := new_title |} in
           let (o', w2) := E _ updated w1 in
           (match o' with
            | Val todo' =>
                Val ("I've updated the todo to '" ++ Todo.title todo'
                     ++ "'.")
            | Exn e => Exn e
            end, w2, [Entry listed o; Entry updated o'])
     end)
  /\ new_title
     = strip (replace "modify" "" (replace "change" ""
                (replace "update" "" user_input)))
  /\ (contains "update" user_input = false ->
      contains "change" user_input = false ->
      contains "modify" user_input = false ->
      new_title = strip user_input)
  /\ update_new_title "Update the Report" = "Update the Report"
  /\ update_new_title "update Buy Milk" = "Buy Milk"
  /\ update_new_title "upupdatedate it" = "update it"
  /\ update_new_title "chaupdatenge now" = "now"
  /\ update_new_title " update " = "".
Proof.
  intros listed new_title. split; [apply update_todo_run|].
  split; [reflexivity|]. split; [|repeat split; reflexivity].
  intros Hu Hc Hm. subst new_title. unfold update_new_title.
  rewrite (replace_absent "update") by (discriminate || exact Hu).
  rewrite (replace_absent "change") by (discriminate || exact Hc).
  now rewrite (replace_absent "modify") by (discriminate || exact Hm).
Qed.

(** C9: when the listing of the user's todos comes back empty, the Delete
    handler answers with the fixed guidance sentence; the listing is the
    only call it has made, so the delete operation of the store was not
    called, nothing was raised, and the state is the one the listing
    left. *)
Theorem delete_without_todos {W : Type} (E : env W) (user_input : string)
    (user : User) (w w1 : W) (total : nat) :
  E _ (get_user_todos user None 1 1) w = (Val ([], total), w1) ->
  run E (_handle_delete_todo user_input user) w
  = (Val "I couldn't find a specific todo to delete. Please specify which todo you want to delete.",
     w1, [Entry (get_user_todos user None 1 1) (Val ([], total))])
  /\ filter (of_kind is_delete_todo)
       (calls E (_handle_delete_todo user_input user) w) = [].
Proof.
  intros H.
  assert (Hrun : run E (_handle_delete_todo user_input user) w
                 = (Val "I couldn't find a specific todo to delete. Please specify which todo you want to delete.",
                    w1, [Entry (get_user_todos user None 1 1)
                               (Val ([], total))]))
    by (rewrite delete_todo_run; cbv zeta; rewrite H; reflexivity).
  split; [exact Hrun|]. unfold calls. now rewrite Hrun.
Qed.

(** ** The handlers over the stores in memory *)

Section Stores.
Variable model : list HistoryItem -> string -> outcome string.

Lemma has_id_str (n : nat) (t : Todo.t) :
  Mem.has_id (str n) t = (Todo.id t =? n)%nat.
Proof.
  unfold Mem.has_id. destruct (Nat.eqb_spec (Todo.id t) n) as [->|Hne].
  - apply String.eqb_refl.
  - apply String.eqb_neq. intros H. now apply str_inj in H.
Qed.

Lemma filter_map_stable {A : Type} (p : A -> bool) (g : A -> A) (l : list A) :
  (forall x, p (g x) = p x) -> filter p (map g l) = map g (filter p l).
Proof.
  intros H. induction l as [|x l IH]; simpl; [reflexivity|].
  rewrite H. destruct (p x); simpl; now rewrite IH.
Qed.

Lemma newest_todo (st : Mem.store) (user : User) (t : Todo.t)
    (rest : list Todo.t) (total : nat) :
  Mem.list_todos st user None 1 1 = (t :: rest, total) ->
  In t (Mem.todos st) /\ Todo.user t = user /\ rest = []
  /\ exists older,
      filter (Mem.wanted user None) (rev (Mem.todos st)) = t :: older.
Proof.
  unfold Mem.list_todos, Mem.page_window. cbn [Nat.sub Nat.mul skipn].
  destruct (filter (Mem.wanted user None) (rev (Mem.todos st)))
    as [|x older] eqn:Hf; cbn [firstn]; intros [= <- <- _].
  assert (Hin : In x (filter (Mem.wanted user None) (rev (Mem.todos st))))
    by (rewrite Hf; now left).
  apply filter_In in Hin. destruct Hin as [Hin Hw].
  unfold Mem.wanted in Hw. apply andb_true_iff in Hw. destruct Hw as [Hu _].
  apply Nat.eqb_eq in Hu. apply in_rev in Hin.
  repeat split; try assumption. now exists older.
Qed.

Lemma find_by_id (l : list Todo.t) (t : Todo.t) :
  NoDup (map Todo.id l) -> In t l ->
  find (Mem.has_id (str (Todo.id t))) l = Some t.
Proof.
  induction l as [|a l IH]; intros Hnd Hin; [contradiction|].
  cbn [map] in Hnd. inversion Hnd as [|? ? Hfresh Hnd']; subst.
  cbn [find]. rewrite has_id_str.
  destruct (Nat.eqb_spec (Todo.id a) (Todo.id t)) as [Heq|Hne].
  - destruct Hin as [->|Hin]; [reflexivity|].
    exfalso. apply Hfresh. rewrite Heq. now apply in_map.
  - destruct Hin as [->|Hin]; [congruence|]. now apply IH.
Qed.

Lemma change_newest (st : Mem.store) (user : User) (t : Todo.t)
    (rest : list Todo.t) (total : nat) (f : Todo.t -> Todo.t) :
  NoDup (map Todo.id (Mem.todos st)) ->
  Mem.list_todos st user None 1 1 = (t :: rest, total) ->
  Mem.change st (str (Todo.id t)) user f
  = (Val (f t),
     Mem.with_todos st (Mem.amend (str (Todo.id t)) f (Mem.todos st))).
Proof.
  intros Hnd Hl. destruct (newest_todo _ _ _ _ _ Hl) as (Hin & Hu & _).
  unfold Mem.change. rewrite (find_by_id _ _ Hnd Hin), Hu.
  now rewrite Nat.eqb_refl.
Qed.

Lemma amend_ids (i : string) (f : Todo.t -> Todo.t) (l : list Todo.t) :
  (forall x, Todo.id (f x) = Todo.id x) ->
  map Todo.id (Mem.amend i f l) = map Todo.id l.
Proof.
  intros H. unfold Mem.amend. rewrite map_map. apply map_ext.
  intros x. now destruct (Mem.has_id i x).
Qed.

Lemma amend_listing (st : Mem.store) (user : User) (t : Todo.t)
    (rest : list Todo.t) (total : nat) (f : Todo.t -> Todo.t) :
  (forall x, Todo.id (f x) = Todo.id x) ->
  (forall x, Todo.user (f x) = Todo.user x) ->
  Mem.list_todos st user None 1 1 = (t :: rest, total) ->
  Mem.list_todos
    (Mem.with_todos st (Mem.amend (str (Todo.id t)) f (Mem.todos st)))
    user None 1 1
  = ([f t], total).
Proof.
  intros Hid Hu Hl. destruct (newest_todo _ _ _ _ _ Hl) as (_ & _ & _ & older & Hf).
  revert Hl. unfold Mem.list_todos, Mem.page_window.
  cbn [Nat.sub Nat.mul skipn Mem.with_todos Mem.todos].
  unfold Mem.amend. rewrite <- map_rev, filter_map_stable.
  - rewrite Hf. cbn [map firstn List.length]. intros [= _ <-].
    rewrite length_map. unfold Mem.has_id. now rewrite String.eqb_refl.
  - intros x. unfold Mem.wanted.
    destruct (Mem.has_id (str (Todo.id t)) x); [now rewrite Hu | reflexivity].
Qed.

Lemma flip_flip (t : Todo.t) : Mem.flip (Mem.flip t) = t.
Proof. destruct t. unfold Mem.flip. cbn. now rewrite negb_involutive. Qed.

Lemma amend_flip_twice (i : string) (l : list Todo.t) :
  Mem.amend i Mem.flip (Mem.amend i Mem.flip l) = l.
Proof.
  unfold Mem.amend. rewrite map_map. rewrite <- (map_id l) at 2.
  apply map_ext. intros x. destruct (Mem.has_id i x) eqn:Hx.
  - change (Mem.has_id i (Mem.flip x)) with (Mem.has_id i x).
    now rewrite Hx, flip_flip.
  - now rewrite Hx.
Qed.

Lemma with_todos_back (st : Mem.store) (l : list Todo.t) :
  Mem.with_todos (Mem.with_todos st l) (Mem.todos st) = st.
Proof. now destruct st. Qed.

Lemma complete_newest (st : Mem.store) (user : User) (user_input : string)
    (t : Todo.t) (rest : list Todo.t) (total : nat) :
  NoDup (map Todo.id (Mem.todos st)) ->
  Mem.list_todos st user None 1 1 = (t :: rest, total) ->
  run (Mem.serve model) (_handle_complete_todo user_input user) st
  = (Val ("I've marked '" ++ Todo.title t ++ "' as "
          ++ (if negb (Todo.is_completed t) then "completed"
              else "marked as incomplete") ++ "."),
     Mem.with_todos st
       (Mem.amend (str (Todo.id t)) Mem.flip (Mem.todos st)),
     [Entry (get_user_todos user None 1 1) (Val (t :: rest, total));
      Entry (toggle_todo_completion (str (Todo.id t)) user)
            (Val (Mem.flip t))]).
Proof.
  intros Hnd Hl. rewrite complete_todo_run. cbv zeta. cbn [Mem.serve].
  rewrite Hl, (change_newest _ _ _ _ _ _ Hnd Hl). reflexivity.
Qed.

(** C7: with a most recent todo [t] of the user in the store, the Complete
    handler flips the completion flag of [t] and of no other todo, and
    says "completed" when the flag has become true, "marked as incomplete"
    when it has become false; a second run finds the same todo, flips the
    flag back, says the other of the two, and leaves the store as it was
    before the first run. *)
Theorem complete_twice_restores (st : Mem.store) (user : User)
    (first second : string) (t : Todo.t) (rest : list Todo.t) (total : nat) :
  NoDup (map Todo.id (Mem.todos st)) ->
  Mem.list_todos st user None 1 1 = (t :: rest, total) ->
  let E := Mem.serve model in
  let said (completed : bool) :=
    "I've marked '" ++ Todo.title t ++ "' as "
    ++ (if completed then "completed" else "marked as incomplete") ++ "." in
  let st1 := final E (_handle_complete_todo first user) st in
  result E (_handle_complete_todo first user) st
  = Val (said (negb (Todo.is_completed t)))
  /\ Mem.todos st1
     = map (fun x => if (Todo.id x =? Todo.id t)%nat then Mem.flip x else x)
           (Mem.todos st)
  /\ fst (Mem.list_todos st1 user None 1 1) = [Mem.flip t]
  /\ result E (_handle_complete_todo second user) st1
     = Val (said (Todo.is_completed t))
  /\ final E (_handle_complete_todo second user) st1 = st.
Proof.
  intros Hnd Hl E said st1.
  pose proof (complete_newest st user first t rest total Hnd Hl) as H1.
  assert (Hst1 : st1 = Mem.with_todos st
                         (Mem.amend (str (Todo.id t)) Mem.flip (Mem.todos st)))
    by (subst st1 E; unfold final; now rewrite H1).
  pose proof (amend_listing st user t rest total Mem.flip
                (fun _ => eq_refl) (fun _ => eq_refl) Hl) as Hl1.
  rewrite <- Hst1 in Hl1.
  assert (Hnd1 : NoDup (map Todo.id (Mem.todos st1))).
  { rewrite Hst1. cbn [Mem.with_todos Mem.todos].
    now rewrite amend_ids by reflexivity. }
  pose proof (complete_newest st1 user second (Mem.flip t) [] total Hnd1 Hl1)
    as H2.
  split; [|split; [|split; [|split]]].
  - subst E. unfold result. now rewrite H1.
  - rewrite Hst1. cbn [Mem.with_todos Mem.todos]. unfold Mem.amend.
    apply map_ext. intros x. now rewrite has_id_str.
  - now rewrite Hl1.
  - subst E. unfold result. rewrite H2. cbn [fst]. unfold said.
    cbn [Mem.flip Todo.title Todo.is_completed].
    now rewrite negb_involutive.
  - subst E. unfold final. rewrite H2. cbn [fst snd].
    cbn [Mem.flip Todo.id]. rewrite Hst1 at 2.
    cbn [Mem.with_todos Mem.todos]. rewrite amend_flip_twice.
    rewrite Hst1. apply with_todos_back.
Qed.

(** *** Identifiers stay unique *)

Lemma empty_well_formed : Mem.well_formed Mem.empty.
Proof. split; constructor. Qed.

Lemma well_formed_filter (p : Todo.t -> bool) (l : list Todo.t) (n : nat) :
  NoDup (map Todo.id l) -> Forall (fun t => Todo.id t < n) l ->
  NoDup (map Todo.id (filter p l))
  /\ Forall (fun t => Todo.id t < n) (filter p l).
Proof.
  induction l as [|x l IH]; intros Hnd Hlt; cbn [filter map].
  - split; constructor.
  - cbn [map] in Hnd. inversion Hnd as [|? ? Hfresh Hnd']; subst.
    inversion Hlt as [|? ? Hx Hlt']; subst.
    destruct (IH Hnd' Hlt') as [IH1 IH2].
    destruct (p x); [|now split].
    split; [|now constructor]. cbn [map]. constructor; [|exact IH1].
    intros Hin. apply Hfresh. apply in_map_iff in Hin.
    destruct Hin as (y & Hy & Hin). apply filter_In in Hin.
    rewrite <- Hy. apply in_map. tauto.
Qed.

Lemma well_formed_amend (i : string) (f : Todo.t -> Todo.t)
    (st : Mem.store) :
  (forall x, Todo.id (f x) = Todo.id x) ->
  Mem.well_formed st ->
  Mem.well_formed (Mem.with_todos st (Mem.amend i f (Mem.todos st))).
Proof.
  intros Hid [Hnd Hlt]. split; cbn [Mem.with_todos Mem.todos Mem.next_id].
  - now rewrite amend_ids.
  - unfold Mem.amend. apply Forall_map. revert Hlt. apply Forall_impl.
    intros x Hx. destruct (Mem.has_id i x); [now rewrite Hid | exact Hx].
Qed.

Lemma well_formed_change (st : Mem.store) (i : string) (user : User)
    (f : Todo.t -> Todo.t) :
  (forall x, Todo.id (f x) = Todo.id x) ->
  Mem.well_formed st -> Mem.well_formed (snd (Mem.change st i user f)).
Proof.
  intros Hid Hwf. unfold Mem.change.
  destruct (find _ _); [|exact Hwf].
  destruct (_ =? _)%nat; [|exact Hwf]. now apply well_formed_amend.
Qed.

Lemma serve_keeps_well_formed {X : Type} (c : call X) (st : Mem.store) :
  Mem.well_formed st -> Mem.well_formed (snd (Mem.serve model X c st)).
Proof.
  intros Hwf. destruct c; cbn [Mem.serve]; try exact Hwf.
  - destruct Hwf as [Hnd Hlt]. split; [exact Hnd|].
    cbn [Mem.new_conversation snd Mem.todos Mem.next_id].
    revert Hlt. apply Forall_impl. intros; lia.
  - destruct Hwf as [Hnd Hlt].
    cbn [Mem.new_todo snd]. split; cbn [Mem.todos Mem.next_id].
    + rewrite map_app. cbn [map Todo.id]. apply NoDup_app.
      * exact Hnd.
      * repeat constructor. intros [].
      * intros n Hin [<-|[]]. apply in_map_iff in Hin.
        destruct Hin as (t & Ht & Hin).
        rewrite Forall_forall in Hlt. apply Hlt in Hin. lia.
    + apply Forall_app. split.
      * revert Hlt. apply Forall_impl. intros; lia.
      * repeat constructor; cbn [Todo.id]; lia.
  - now apply well_formed_change.
  - unfold Mem.remove. destruct (find _ _); [|exact Hwf].
    destruct (_ =? _)%nat; [|exact Hwf].
    destruct Hwf as [Hnd Hlt].
    exact (well_formed_filter _ _ _ Hnd Hlt).
  - now apply well_formed_change.
Qed.

(** Whatever the class does to well-formed stores leaves them
    well-formed: the stores reached from [Mem.empty] have unique
    identifiers. *)
Lemma run_keeps_well_formed {A : Type} (p : prog A) (st : Mem.store) :
  Mem.well_formed st -> Mem.well_formed (final (Mem.serve model) p st).
Proof.
  unfold final. revert st.
  induction p as [a|e|X c k IH]; intros st Hwf; try exact Hwf.
  cbn [run]. pose proof (serve_keeps_well_formed c st Hwf) as Hs.
  destruct (Mem.serve model X c st) as [o st1]. specialize (IH o st1 Hs).
  now destruct (run (Mem.serve model) (k o) st1) as [[r st2] log].
Qed.

(** What the message store lists for a conversation right after a message
    was appended to it ends with that message. *)
Lemma list_messages_after_append (st : Mem.store)
    (conversation : Conversation.t) (user : User) (role content : string) :
  Conversation.user conversation = user ->
  exists earlier total,
    Mem.list_messages
      (snd (Mem.append_message st conversation role content))
      conversation user 1 10
    = ((earlier ++ [fst (Mem.append_message st conversation role content)])
         %list, total).
Proof.
  intros Hu. unfold Mem.list_messages, Mem.append_message, Mem.page_window.
  cbn [fst snd Mem.messages Nat.sub Nat.mul skipn].
  rewrite filter_app. cbn [filter Message.conversation].
  rewrite Hu, !Nat.eqb_refl. cbn [andb].
  rewrite rev_app_distr. cbn [rev app firstn].
  eexists _, _. reflexivity.
Qed.

Lemma conversation_of_user (st : Mem.store) (user : User)
    (conversation : Conversation.t) (rest : list Conversation.t)
    (total : nat) :
  Mem.list_recent st user 1 1 = (conversation :: rest, total) ->
  Conversation.user conversation = user.
Proof.
  unfold Mem.list_recent, Mem.page_window. cbn [Nat.sub Nat.mul skipn].
  destruct (filter _ (rev (Mem.conversations st))) as [|c cs] eqn:Hf;
    cbn [firstn]; intros [= <- _ _].
  assert (Hin : In c (filter (fun c => Conversation.user c =? user)%nat
                             (rev (Mem.conversations st))))
    by (rewrite Hf; now left).
  apply filter_In in Hin. now apply Nat.eqb_eq.
Qed.

(** In the stores in memory this is so for every store and every input
    classified as Other: the history sent ends with the current input. *)
Lemma general_query_repeats_input_in_memory (st : Mem.store)
    (user_input : string) (user : User) :
  _determine_intent (lower user_input) = "other" ->
  exists earlier o,
    In (Entry (send_message
                 (earlier ++ [ {| h_role := "user";
                                  h_parts := [user_input] |} ])%list
                 user_input) o)
       (calls (Mem.serve model)
          (process_natural_language_todo_command user_input user) st).
Proof.
  intros Hother. unfold calls.
  rewrite process_command_is_turn, turn_run, current_conversation_run.
  rewrite Hother.
  assert (Hq : forall conversation st1,
             Conversation.user conversation = user ->
             exists earlier o,
               In (Entry (send_message
                            (earlier ++ [ {| h_role := "user";
                                             h_parts := [user_input] |} ])%list
                            user_input) o)
                  (snd (run (Mem.serve model)
                          (guarded_dispatch "other" user_input conversation
                             user)
                          (snd (Mem.append_message st1 conversation "user"
                                  user_input))))).
  { intros conversation st1 Hu.
    rewrite guarded_dispatch_run.
    change (dispatch "other" user_input conversation user)
      with (_handle_general_query user_input conversation user).
    rewrite general_query_run. cbv zeta. cbn [Mem.serve].
    destruct (list_messages_after_append st1 conversation user "user"
                user_input Hu) as (earlier & total & ->).
    exists (map format_message earlier), (model (map format_message
      (earlier ++ [fst (Mem.append_message st1 conversation "user"
                          user_input)])%list) user_input).
    rewrite map_app. cbn [map fst Mem.append_message format_message
                          Message.role Message.content snd].
    right. now left. }
  cbn [Mem.serve].
  destruct (Mem.list_recent st user 1 1) as [[|conversation rest] total] eqn:Hl.
  - cbn [Mem.new_conversation].
    destruct (Hq {| Conversation.id := Mem.next_id st;
                    Conversation.user := user |}
                 {| Mem.conversations :=
                      (Mem.conversations st
                       ++ [ {| Conversation.id := Mem.next_id st;
                               Conversation.user := user |} ])%list;
                    Mem.messages := Mem.messages st;
                    Mem.todos := Mem.todos st;
                    Mem.next_id := S (Mem.next_id st) |} eq_refl)
      as (earlier & o & Hin).
    exists earlier, o. revert Hin. cbn [Mem.append_message snd].
    destruct (run _ _ _) as [[[response|e] st3] log3]; cbn [snd]; intros Hin.
    + right. right. right. apply in_or_app. now left.
    + right. right. right. exact Hin.
  - destruct (Hq conversation st (conversation_of_user _ _ _ _ _ Hl))
      as (earlier & o & Hin).
    exists earlier, o. revert Hin. cbn [Mem.append_message snd].
    destruct (run _ _ _) as [[[response|e] st3] log3]; cbn [snd]; intros Hin.
    + right. right. apply in_or_app. now left.
    + right. right. exact Hin.
Qed.

(** In the stores in memory, Update retitles the most recent todo of the
    user and quotes the new title. *)
Lemma update_newest_in_memory (st : Mem.store) (user : User)
    (user_input : string) (t : Todo.t) (rest : list Todo.t) (total : nat) :
  NoDup (map Todo.id (Mem.todos st)) ->
  Mem.list_todos st user None 1 1 = (t :: rest, total) ->
  update_new_title user_input <> "" ->
  let new_title := update_new_title user_input in
  let st1 := final (Mem.serve model) (_handle_update_todo user_input user) st in
  result (Mem.serve model) (_handle_update_todo user_input user) st
  = Val ("I've updated the todo to '" ++ new_title ++ "'.")
  /\ Mem.list_todos st1 user None 1 1 = ([Mem.retitle new_title t], total).
Proof.
  intros Hnd Hl Hne new_title st1.
  assert (Hrun : run (Mem.serve model) (_handle_update_todo user_input user) st
                 = (Val ("I've updated the todo to '" ++ new_title ++ "'."),
                    Mem.with_todos st
                      (Mem.amend (str (Todo.id t)) (Mem.retitle new_title)
                         (Mem.todos st)),
                    [Entry (get_user_todos user None 1 1)
                           (Val (t :: rest, total));
                     Entry (update_todo (str (Todo.id t)) user
                              {| TodoUpdate.title := new_title |})
                           (Val (Mem.retitle new_title t))])).
  { rewrite update_todo_run. cbv zeta. cbn [Mem.serve]. rewrite Hl.
    fold new_title. destruct (String.eqb_spec new_title "") as [H|_];
      [contradiction|].
    cbn [TodoUpdate.title].
    now rewrite (change_newest _ _ _ _ _ _ Hnd Hl). }
  subst st1. unfold result, final. rewrite Hrun. cbn [fst snd].
  split; [reflexivity|].
  now apply amend_listing with (rest := rest).
Qed.

(** A page of the todo store never holds more than [limit] items. *)
Lemma list_todos_at_most (st : Mem.store) (user : User)
    (completed : option bool) (page limit : nat) :
  List.length (fst (Mem.list_todos st user completed page limit)) <= limit.
Proof. unfold Mem.list_todos, Mem.page_window. apply firstn_le_length. Qed.

Lemma filter_none {A : Type} (p : A -> bool) (l : list A) :
  (forall x, In x l -> p x = false) -> filter p l = [].
Proof.
  induction l as [|x l IH]; intros H; cbn [filter]; [reflexivity|].
  rewrite (H x) by now left. apply IH. intros y Hy. apply H. now right.
Qed.

(** A user who owns no todo gets an empty listing. *)
Lemma no_todos_listing (st : Mem.store) (user : User)
    (completed : option bool) (page limit : nat) :
  (forall t, In t (Mem.todos st) -> Todo.user t <> user) ->
  Mem.list_todos st user completed page limit = ([], 0).
Proof.
  intros H. unfold Mem.list_todos.
  rewrite (filter_none (Mem.wanted user completed)).
  - unfold Mem.page_window. now rewrite skipn_nil, firstn_nil.
  - intros x Hin. apply in_rev in Hin. unfold Mem.wanted.
    destruct (Nat.eqb_spec (Todo.user x) user) as [Heq|Hne];
      [now apply H in Hin | reflexivity].
Qed.

(** In the stores in memory, Delete for a user without todos changes
    nothing. *)
Lemma delete_without_todos_in_memory (st : Mem.store) (user : User)
    (user_input : string) :
  (forall t, In t (Mem.todos st) -> Todo.user t <> user) ->
  run (Mem.serve model) (_handle_delete_todo user_input user) st
  = (Val "I couldn't find a specific todo to delete. Please specify which todo you want to delete.",
     st, [Entry (get_user_todos user None 1 1) (Val ([], 0))]).
Proof.
  intros H. rewrite delete_todo_run. cbv zeta. cbn [Mem.serve].
  now rewrite (no_todos_listing st user None 1 1 H).
Qed.

(** *** The message store across a turn *)

Lemma serve_keeps_messages {X : Type} (c : call X) (st : Mem.store) :
  is_create_message X c = false ->
  Mem.messages (snd (Mem.serve model X c st)) = Mem.messages st.
Proof.
  destruct c; cbn [is_create_message Mem.serve]; intros H;
    try discriminate H; try reflexivity;
    unfold Mem.change, Mem.remove;
    (destruct (find _ _); [|reflexivity]);
    now destruct (_ =? _)%nat.
Qed.

Lemma avoids_keeps_messages {A : Type} (p : prog A) :
  avoids is_create_message p ->
  forall st, Mem.messages (final (Mem.serve model) p st) = Mem.messages st.
Proof.
  unfold final. intros Hp.
  induction Hp as [a|e|X c k Hc Hk IH]; intros st; try reflexivity.
  cbn [run]. pose proof (serve_keeps_messages c st Hc) as Hs.
  destruct (Mem.serve model X c st) as [o st1]. specialize (IH o st1).
  destruct (run (Mem.serve model) (k o) st1) as [[r st2] log].
  cbn [fst snd] in *. congruence.
Qed.

Lemma turn_appends (body : Conversation.t -> prog string)
    (user_input : string) (user : User) (st : Mem.store)
    (response : string) :
  (forall conversation, avoids is_create_message (body conversation)) ->
  result (Mem.serve model) (turn user_input user body) st = Val response ->
  exists conversation,
    Mem.messages (final (Mem.serve model) (turn user_input user body) st)
    = (Mem.messages st
       ++ [ {| Message.conversation := Conversation.id conversation;
               Message.role := "user"; Message.content := user_input |};
            {| Message.conversation := Conversation.id conversation;
               Message.role := "assistant";
               Message.content := response |} ])%list.
Proof.
  intros Hquiet. unfold result, final. rewrite turn_run.
  pose proof (avoids_keeps_messages _
                (current_conversation_logs_nothing user) st) as H0.
  unfold final in H0.
  destruct (run (Mem.serve model) (current_conversation user) st)
    as [[[conversation|e] st1] log0]; [|discriminate].
  cbn [fst snd] in H0. cbn [Mem.serve Mem.append_message].
  match goal with
  | |- context [run (Mem.serve model) (body conversation) ?s] =>
      pose proof (avoids_keeps_messages _ (Hquiet conversation) s) as H3;
      unfold final in H3;
      destruct (run (Mem.serve model) (body conversation) s)
        as [[[answer|e] st3] log3]; [|discriminate]
  end.
  cbn [fst snd Mem.messages] in *. intros [= <-].
  exists conversation. rewrite H3, H0, <- app_assoc. reflexivity.
Qed.

(** In the stores in memory, a turn that returns leaves the message store
    with the user input and the returned answer appended, in this order,
    to one conversation. *)
Lemma turn_appends_in_memory (entry_point : string -> User -> prog string)
    (user_input : string) (user : User) (st : Mem.store)
    (response : string) :
  entry_point = process_natural_language_todo_command
  \/ entry_point = process_chat ->
  result (Mem.serve model) (entry_point user_input user) st = Val response ->
  exists conversation,
    Mem.messages (final (Mem.serve model) (entry_point user_input user) st)
    = (Mem.messages st
       ++ [ {| Message.conversation := Conversation.id conversation;
               Message.role := "user"; Message.content := user_input |};
            {| Message.conversation := Conversation.id conversation;
               Message.role := "assistant";
               Message.content := response |} ])%list.
Proof.
  intros [-> | ->].
  - rewrite process_command_is_turn. apply turn_appends.
    intros conversation. unfold guarded_dispatch.
    apply avoids_try_except; [apply dispatch_logs_nothing | intro; constructor].
  - unfold result, final. rewrite process_chat_is_turn.
    apply (turn_appends (fun conversation =>
                           _handle_general_query user_input conversation
                             user)).
    intros conversation. unfold _handle_general_query, ask_model. quiet.
Qed.

End Stores.

(** ** The theorems at work on sample runs *)

Example intent_add_before_delete :
  _determine_intent "Please ADD milk and delete eggs" = "add".
Proof. reflexivity. Qed.

Example intent_other : _determine_intent (lower "hello") = "other".
Proof. reflexivity. Qed.

Example replace_leftmost : replace "ab" "X" "ababcab" = "XXcX".
Proof. reflexivity. Qed.

Example replace_no_overlap : replace "aa" "" "aaa" = "a".
Proof. reflexivity. Qed.

Example replace_empty_token : replace "" "-" "abc" = "-a-b-c-".
Proof. reflexivity. Qed.

Example strip_both_ends : strip "  a b  " = "a b".
Proof. reflexivity. Qed.

Example title_keeps_a_filler : extract_title "mmee" = "me".
Proof. reflexivity. Qed.

Lemma handler_exception_witness :
  result todos_out
    (process_natural_language_todo_command "add milk" 7) Mem.empty
  = Val (apology ++ "todo store unavailable")
  /\ Mem.messages
       (final todos_out
          (process_natural_language_todo_command "add milk" 7) Mem.empty)
     = [ {| Message.conversation := 1; Message.role := "user";
            Message.content := "add milk" |};
         {| Message.conversation := 1; Message.role := "assistant";
            Message.content := apology ++ "todo store unavailable" |} ].
Proof.
  pose proof
    (handler_exception_becomes_apology todos_out "add milk" 7 Mem.empty
       _ _ _ _ _ _ _ _ eq_refl eq_refl eq_refl) as H.
  cbv zeta in H. destruct H as (_ & _ & _ & Hfinal & Hresult).
  split.
  - exact (Hresult _ eq_refl).
  - rewrite Hfinal. reflexivity.
Defined.

Lemma turn_logs_witness :
  exists conversation m1 m2,
    filter (of_kind is_create_message)
      (calls healthy
         (process_natural_language_todo_command "add milk" 7) Mem.empty)
    = [ Entry (create_message conversation "user" "add milk") (Val m1);
        Entry (create_message conversation "assistant"
                 "I've added 'milk' to your todo list.") (Val m2) ].
Proof.
  destruct (turn_logs_input_then_answer healthy
              process_natural_language_todo_command "add milk" 7 Mem.empty
              "I've added 'milk' to your todo list."
              (or_introl eq_refl) eq_refl)
    as (conversation & m1 & m2 & before & during & H).
  exists conversation, m1, m2. apply H.
Defined.

Lemma complete_twice_witness :
  let once := final healthy (_handle_complete_todo "done" 7) one_todo in
  result healthy (_handle_complete_todo "done" 7) one_todo
  = Val "I've marked 'buy milk' as completed."
  /\ map Todo.is_completed (Mem.todos once) = [true]
  /\ result healthy (_handle_complete_todo "done again" 7) once
     = Val "I've marked 'buy milk' as marked as incomplete."
  /\ final healthy (_handle_complete_todo "done again" 7) once = one_todo.
Proof.
  assert (Hnd : NoDup (map Todo.id (Mem.todos one_todo))).
  { repeat constructor. intros []. }
  pose proof (complete_twice_restores (Mem.parrot "Hello!") one_todo 7
                "done" "done again" milk [] 1 Hnd eq_refl) as H.
  cbv zeta in H. destruct H as (H1 & H2 & _ & H4 & H5).
  cbv zeta. split; [exact H1|]. split; [|split; [exact H4 | exact H5]].
  unfold healthy. rewrite H2. reflexivity.
Defined.

Lemma delete_without_todos_witness :
  run healthy (_handle_delete_todo "delete it" 7) Mem.empty
  = (Val "I couldn't find a specific todo to delete. Please specify which todo you want to delete.",
     Mem.empty, [Entry (get_user_todos 7 None 1 1) (Val ([], 0))]).
Proof.
  exact (proj1 (delete_without_todos healthy "delete it" 7 Mem.empty
                  Mem.empty 0 eq_refl)).
Defined.

Lemma boundary_failure_witness :
  result conversations_out
    (process_natural_language_todo_command "add milk" 7) Mem.empty
  = Exn "conversation store unavailable".
Proof.
  exact (proj1 (boundary_failure_propagates conversations_out "add milk" 7
                  Mem.empty "conversation store unavailable"
                  (lookup_fails conversations_out "add milk" 7 Mem.empty _
                     Mem.empty eq_refl))).
Defined.

Lemma general_query_witness :
  In (Entry (send_message [ {| h_role := "user"; h_parts := ["hello"] |} ]
                          "hello") (Val "Hello!"))
     (calls healthy
        (process_natural_language_todo_command "hello" 7) Mem.empty).
Proof.
  exact (proj1 (general_query_history_is_listing healthy "hello" 7 Mem.empty
                  _ _ _ _ _ _ _ _ eq_refl eq_refl eq_refl eq_refl)).
Defined.

(** The whole log of a first "hello": the model receives the input in the
    history and again as the message. *)
Example general_query_log_on_hello :
  let conversation := {| Conversation.id := 1; Conversation.user := 7 |} in
  let asked := {| Message.conversation := 1; Message.role := "user";
                  Message.content := "hello" |} in
  let answered := {| Message.conversation := 1; Message.role := "assistant";
                     Message.content := "Hello!" |} in
  calls healthy (process_natural_language_todo_command "hello" 7) Mem.empty
  = [ Entry (get_user_conversations 7 1 1) (Val ([], 0));
      Entry (create_conversation 7) (Val conversation);
      Entry (create_message conversation "user" "hello") (Val asked);
      Entry (get_messages_by_conversation conversation 7 1 10)
            (Val ([asked], 1));
      Entry (send_message [ {| h_role := "user"; h_parts := ["hello"] |} ]
                          "hello") (Val "Hello!");
      Entry (create_message conversation "assistant" "Hello!")
            (Val answered) ].
Proof. reflexivity. Qed.

(** * Further properties *)

(** ** The shape of extracted titles *)

Section TitleShape.

Lemma lower_append (a b : string) : lower (a ++ b) = lower a ++ lower b.
Proof. induction a as [|c a IH]; simpl; [reflexivity | now rewrite IH]. Qed.
















Lemma lstrip_suffix (s : string) : exists a, s = a ++ lstrip s.
Proof.
  induction s as [|c s [a IH]]; [now exists ""|].
  cbn [lstrip]. destruct (isspace c); [|now exists ""].
  exists (String c a). simpl. now rewrite <- IH.
Qed.

Lemma rstrip_prefix (s : string) : exists b, s = rstrip s ++ b.
Proof.
  induction s as [|c s [b IH]]; [now exists ""|].
  cbn [rstrip]. destruct (rstrip s) as [|d r].
  - destruct (isspace c).
    + now exists (String c s).
    + exists b. simpl in *. now rewrite <- IH.
  - exists b. simpl in *. now rewrite <- IH.
Qed.

Lemma contains_context (sub a s b : string) :
  contains sub s = true -> contains sub (a ++ s ++ b) = true.
Proof.
  intros H. apply contains_iff in H. destruct H as (x & y & ->).
  apply contains_iff. exists (a ++ x), (y ++ b).
  now rewrite !append_assoc.
Qed.

Lemma contains_strip (sub s : string) :
  contains sub s = false -> contains sub (strip s) = false.
Proof.
  intros H. destruct (contains sub (strip s)) eqn:Hc; [|reflexivity].
  destruct (lstrip_suffix s) as [a Ha].
  destruct (rstrip_prefix (lstrip s)) as [b Hb].
  apply (contains_context sub a (strip s) b) in Hc.
  unfold strip in Hc. rewrite <- Hb, <- Ha in Hc. congruence.
Qed.

Lemma fold_without_tokens (tokens : list string) (s : string) :
  (forall t, In t tokens -> t <> "" /\ contains t s = false) ->
  strip (fold_left strip_token tokens s) = strip s.
Proof.
  revert s. induction tokens as [|t tokens IH]; intros s H; [reflexivity|].
  cbn [fold_left]. destruct (H t (or_introl eq_refl)) as [Ht Hc].
  unfold strip_token at 2. rewrite (replace_absent t "" s Ht Hc).
  rewrite IH; [apply strip_idem|].
  intros t' Ht'. destruct (H t' (or_intror Ht')) as [Hne Hc'].
  split; [exact Hne | now apply contains_strip].
Qed.

(** X2: a text in which, once lowercased, none of the filler tokens
    occurs passes through [_extract_todo_info] lowercased and trimmed, and
    otherwise as it is. *)
Theorem extract_title_without_fillers (text : string) :
  (forall token, In token filler_tokens ->
                 contains token (lower text) = false) ->
  extract_title text = strip (lower text).
Proof.
  intros H. unfold extract_title, _extract_todo_info. cbn [info_title].
  apply fold_without_tokens. intros t Ht. split; [|now apply H].
  simpl in Ht. repeat (destruct Ht as [<-|Ht]; [discriminate|]).
  contradiction.
Qed.

End TitleShape.

(** ** Keywords in context *)

Section KeywordsInContext.

Lemma any_in_context (kws : list string) (a s b : string) :
  any_in kws (lower s) = true -> any_in kws (lower (a ++ s ++ b)) = true.
Proof.
  unfold any_in. rewrite !existsb_exists. intros (kw & Hin & Hc).
  exists kw. split; [exact Hin|]. rewrite !lower_append.
  now apply contains_context.
Qed.

Lemma any_in_part (kws : list string) (a s b : string) :
  any_in kws (lower (a ++ s ++ b)) = false -> any_in kws (lower s) = false.
Proof.
  intros H. destruct (any_in kws (lower s)) eqn:Hs; [|reflexivity].
  apply (any_in_context kws a s b) in Hs. congruence.
Qed.

(** X3: text put before and after an input never takes a keyword away: an
    input classified as Add stays Add inside any longer text, and every
    part of a text classified as Other is classified as Other. *)
Theorem intent_in_context (a s b : string) :
  (forall kws, any_in kws (lower s) = true ->
               any_in kws (lower (a ++ s ++ b)) = true)
  /\ (_determine_intent s = "add" ->
      _determine_intent (a ++ s ++ b) = "add")
  /\ (_determine_intent (a ++ s ++ b) = "other" ->
      _determine_intent s = "other").
Proof.
  split; [intros kws; apply any_in_context|]. split.
  - unfold _determine_intent. intros H.
    destruct (any_in add_keywords (lower s)) eqn:Hadd.
    + now rewrite (any_in_context add_keywords a s b Hadd).
    + destruct (any_in list_keywords (lower s));
        [discriminate|].
      destruct (any_in complete_keywords (lower s)); [discriminate|].
      destruct (any_in delete_keywords (lower s)); [discriminate|].
      destruct (any_in update_keywords (lower s)); discriminate.
  - unfold _determine_intent. intros H.
    destruct (any_in add_keywords (lower (a ++ s ++ b))) eqn:H1;
      [discriminate|].
    destruct (any_in list_keywords (lower (a ++ s ++ b))) eqn:H2;
      [discriminate|].
    destruct (any_in complete_keywords (lower (a ++ s ++ b))) eqn:H3;
      [discriminate|].
    destruct (any_in delete_keywords (lower (a ++ s ++ b))) eqn:H4;
      [discriminate|].
    destruct (any_in update_keywords (lower (a ++ s ++ b))) eqn:H5;
      [discriminate|].
    now rewrite (any_in_part _ _ _ _ H1), (any_in_part _ _ _ _ H2),
      (any_in_part _ _ _ _ H3), (any_in_part _ _ _ _ H4),
      (any_in_part _ _ _ _ H5).
Qed.

(** X4: the keyword "as done" of the Complete set never decides anything:
    a text that contains it contains "done", so the set matches the same
    texts without it. *)
Theorem as_done_is_covered (s : string) :
  (contains "as done" s = true -> contains "done" s = true)
  /\ any_in complete_keywords s
     = any_in ["complete"; "done"; "finish"; "mark"; "check"] s.
Proof.
  assert (H : contains "as done" s = true -> contains "done" s = true).
  { intros Hc. apply contains_iff in Hc. destruct Hc as (x & y & ->).
    apply contains_iff. exists (x ++ "as "), y.
    rewrite append_assoc. reflexivity. }
  split; [exact H|]. unfold any_in, complete_keywords. cbn [existsb].
  destruct (contains "as done" s); [|now rewrite !orb_false_l].
  rewrite (H eq_refl). now rewrite !orb_true_r.
Qed.

End KeywordsInContext.

(** ** Counting calls *)

Section Counting.
Context {W : Type} (E : env W).
Variable kind : forall X : Type, call X -> bool.

Lemma at_most_weaken {A : Type} (p : prog A) (n m : nat) :
  at_most kind n p -> n <= m -> at_most kind m p.
Proof.
  intros Hp. revert m.
  induction Hp as [n a|n e|n X c k Hc Hk IH|n X c k Hk IH]; intros m Hle.
  - constructor.
  - constructor.
  - apply at_most_other; [exact Hc|]. intros o. now apply IH.
  - destruct m as [|m]; [lia|]. apply at_most_one_more.
    intros o. apply IH. lia.
Qed.

Lemma at_most_perform_other {X : Type} (c : call X) (n : nat) :
  kind X c = false -> at_most kind n (perform c).
Proof.
  intros H. apply at_most_other; [exact H|]. intros [x|e]; constructor.
Qed.

Lemma at_most_perform_one {X : Type} (c : call X) (n : nat) :
  at_most kind (S n) (perform c).
Proof. apply at_most_one_more. intros [x|e]; constructor. Qed.

Lemma at_most_bind {A B : Type} (p : prog A) (f : A -> prog B) (n m : nat) :
  at_most kind n p -> (forall a, at_most kind m (f a)) ->
  at_most kind (n + m) (bind p f).
Proof.
  intros Hp Hf.
  induction Hp as [n a|n e|n X c k Hc Hk IH|n X c k Hk IH]; cbn [bind].
  - apply (at_most_weaken _ m); [apply Hf | lia].
  - constructor.
  - apply at_most_other; [exact Hc | exact IH].
  - apply (at_most_one_more kind (n + m)). exact IH.
Qed.

Lemma at_most_bind_after {A B : Type} (p : prog A) (f : A -> prog B)
    (n : nat) :
  at_most kind 0 p -> (forall a, at_most kind n (f a)) ->
  at_most kind n (bind p f).
Proof. intros Hp Hf. exact (at_most_bind p f 0 n Hp Hf). Qed.

Lemma at_most_bind_before {A B : Type} (p : prog A) (f : A -> prog B)
    (n : nat) :
  at_most kind n p -> (forall a, at_most kind 0 (f a)) ->
  at_most kind n (bind p f).
Proof.
  intros Hp Hf. pose proof (at_most_bind p f n 0 Hp Hf) as H.
  now rewrite Nat.add_0_r in H.
Qed.

Lemma at_most_try_except {A : Type} (p : prog A) (h : string -> prog A)
    (n : nat) :
  at_most kind n p -> (forall e, at_most kind 0 (h e)) ->
  at_most kind n (try_except p h).
Proof.
  intros Hp Hh.
  induction Hp as [n a|n e|n X c k Hc Hk IH|n X c k Hk IH]; cbn [try_except].
  - constructor.
  - apply (at_most_weaken _ 0); [apply Hh | lia].
  - apply at_most_other; [exact Hc | exact IH].
  - apply at_most_one_more. exact IH.
Qed.

Lemma at_most_run {A : Type} (p : prog A) (n : nat) :
  at_most kind n p ->
  forall w, List.length (filter (of_kind kind) (calls E p w)) <= n.
Proof.
  unfold calls. intros Hp.
  induction Hp as [n a|n e|n X c k Hc Hk IH|n X c k Hk IH]; intros w;
    try (cbn; lia).
  - cbn [run]. destruct (E X c w) as [o w1]. specialize (IH o w1).
    destruct (run E (k o) w1) as [[r w2] log]. cbn [snd filter of_kind] in *.
    now rewrite Hc.
  - cbn [run]. destruct (E X c w) as [o w1]. specialize (IH o w1).
    destruct (run E (k o) w1) as [[r w2] log]. cbn [snd filter of_kind] in *.
    destruct (kind X c); cbn [List.length]; lia.
Qed.

End Counting.

(** Decides [at_most] goals over programs built from [bind], [try_except]
    and [perform]. *)
Ltac bounded :=
  lazymatch goal with
  | |- at_most _ _ (Ret _) => apply at_most_ret
  | |- at_most _ _ (Raise _) => apply at_most_raise
  | |- at_most _ _ (perform _) =>
      first [ apply at_most_perform_other; reflexivity
            | apply at_most_perform_one ]
  | |- at_most _ _ (bind _ _) =>
      first [ solve [ apply at_most_bind_after;
                      [ bounded | intro; cbv beta; bounded ] ]
            | solve [ apply at_most_bind_before;
                      [ bounded | intro; cbv beta; bounded ] ] ]
  | |- at_most _ _ (try_except _ _) =>
      apply at_most_try_except; [ bounded | intro; cbv beta; bounded ]
  | |- at_most _ _ (match ?x with _ => _ end) => destruct x; bounded
  end.

Lemma dispatch_one_effect (intent user_input : string)
    (conversation : Conversation.t) (user : User) :
  at_most is_effect 1 (dispatch intent user_input conversation user).
Proof.
  unfold dispatch, _handle_add_todo, _handle_list_todos,
    _handle_complete_todo, _handle_delete_todo, _handle_update_todo,
    _handle_general_query, _extract_todo_id, ask_model.
  repeat match goal with
         | |- at_most _ _ (if ?b then _ else _) => destruct b
         end; bounded.
Qed.

(** X5: a turn does at most one thing besides reading and logging: over
    the whole of [process_natural_language_todo_command] there is at most
    one call that either changes the todo store or asks the model;
    [process_chat] never changes the todo store and asks the model at most
    once. *)
Theorem one_effect_per_turn {W : Type} (E : env W) (user_input : string)
    (user : User) (w : W) :
  List.length
    (filter (of_kind is_effect)
       (calls E (process_natural_language_todo_command user_input user) w))
  <= 1
  /\ filter (of_kind is_todo_write)
       (calls E (process_chat user_input user) w) = []
  /\ List.length
       (filter (of_kind is_send_message)
          (calls E (process_chat user_input user) w)) <= 1.
Proof.
  split; [|split].
  - apply at_most_run.
    unfold process_natural_language_todo_command, current_conversation,
      guarded_dispatch.
    pose proof dispatch_one_effect as Hd.
    apply at_most_bind_after; [bounded|]. intros conversation.
    apply at_most_bind_after; [bounded|]. intros _.
    apply at_most_bind_before; [|intro; bounded].
    apply at_most_try_except; [apply Hd | intro; bounded].
  - apply avoids_run. unfold process_chat, current_conversation, ask_model.
    quiet.
  - apply at_most_run.
    unfold process_chat, current_conversation, ask_model. bounded.
Qed.

Lemma intent_cases (s : string) :
  In (_determine_intent s)
     ["add"; "list"; "complete"; "delete"; "update"; "other"].
Proof. exact (first_match_in intent_table (lower s)). Qed.

Lemma turn_avoids (kind : forall X : Type, call X -> bool)
    (user_input : string) (user : User)
    (body : Conversation.t -> prog string) :
  kind _ (get_user_conversations user 1 1) = false ->
  kind _ (create_conversation user) = false ->
  (forall conversation role content,
      kind _ (create_message conversation role content) = false) ->
  (forall conversation, avoids kind (body conversation)) ->
  avoids kind (turn user_input user body).
Proof.
  intros H1 H2 H3 Hb. unfold turn, current_conversation.
  apply avoids_bind.
  - apply avoids_bind; [now apply avoids_perform|].
    intros [[|conversation rest] total];
      [now apply avoids_perform | constructor].
  - intros conversation. apply avoids_bind; [now apply avoids_perform|].
    intros _. apply avoids_bind; [apply Hb|].
    intros response. apply avoids_bind; [now apply avoids_perform|].
    intros _. constructor.
Qed.

(** X6: which intents can do what.  A text with a recognised intent never
    reaches the model; a text classified as List or Other never changes the
    todo store. *)
Theorem effects_by_intent {W : Type} (E : env W) (user_input : string)
    (user : User) (w : W) :
  let intent := _determine_intent (lower user_input) in
  let log :=
    calls E (process_natural_language_todo_command user_input user) w in
  (intent <> "other" -> filter (of_kind is_send_message) log = [])
  /\ (intent = "list" \/ intent = "other" ->
      filter (of_kind is_todo_write) log = []).
Proof.
  intros intent log. subst log. rewrite process_command_is_turn. fold intent.
  pose proof (intent_cases (lower user_input)) as Hi. fold intent in Hi.
  split; intros H; apply avoids_run; apply turn_avoids; try reflexivity;
    intros conversation; unfold guarded_dispatch;
    (apply avoids_try_except; [|intro; constructor]).
  - cbn [In] in Hi.
    destruct Hi as [Hi|[Hi|[Hi|[Hi|[Hi|[Hi|[]]]]]]]; rewrite <- Hi in *;
      try congruence;
      unfold dispatch; cbn [String.eqb Ascii.eqb Bool.eqb];
      unfold _handle_add_todo, _handle_list_todos, _handle_complete_todo,
        _handle_delete_todo, _handle_update_todo, _extract_todo_id; quiet.
  - destruct H as [H|H]; rewrite H; unfold dispatch;
      cbn [String.eqb Ascii.eqb Bool.eqb];
      unfold _handle_list_todos, _handle_general_query, ask_model; quiet.
Qed.

(** ** Handlers and entry points, further *)

(** X7: [_extract_todo_id] answers with the empty string exactly when the
    listing comes back empty: the text it returns for a listed todo is
    never empty, so "no todo" cannot be mistaken for a todo. *)
Theorem extract_todo_id_empty_iff {W : Type} (E : env W)
    (user_input : string) (user : User) (w : W) :
  (result E (_extract_todo_id user_input user) w = Val ""
   <-> exists total,
      fst (E _ (get_user_todos user None 1 1) w) = Val ([], total))
  /\ (forall todo rest total,
        fst (E _ (get_user_todos user None 1 1) w)
        = Val (todo :: rest, total) ->
        result E (_extract_todo_id user_input user) w
        = Val (str (Todo.id todo))
        /\ str (Todo.id todo) <> "").
Proof.
  unfold result. rewrite extract_todo_id_run. cbv zeta.
  destruct (E _ (get_user_todos user None 1 1) w)
    as [[[[|todo rest] total]|e] w1]; cbn [fst].
  - split; [|discriminate].
    split; [now exists total | reflexivity].
  - split.
    + split; [|now intros [? [=]]].
      intros [= H]. now apply str_nonempty in H.
    + intros ? ? ? [= <- _ _]. split; [reflexivity | apply str_nonempty].
  - split; [|discriminate].
    split; [discriminate | now intros [? [=]]].
Qed.

(** X8: [_handle_general_query] raises only what the listing of the
    messages raises; a failure of the model is answered inside the
    handler. *)
Theorem general_query_raises_only_listing {W : Type} (E : env W)
    (user_input : string) (conversation : Conversation.t) (user : User)
    (w : W) (e : string) :
  result E (_handle_general_query user_input conversation user) w = Exn e
  <-> fst (E _ (get_messages_by_conversation conversation user 1 10) w)
      = Exn e.
Proof.
  unfold result. rewrite general_query_run. cbv zeta.
  destruct (E _ (get_messages_by_conversation conversation user 1 10) w)
    as [[[recent total]|e'] w1]; cbn [fst];
    [|split; intros [= ->]; reflexivity].
  destruct (E _ (send_message _ user_input) w1) as [o' w2]. cbn [fst].
  split; discriminate.
Qed.

(** X9: for a text classified as Other, whenever [process_chat] returns a
    value, [process_natural_language_todo_command] makes the same calls,
    reaches the same state and returns the same value. *)
Theorem chat_and_command_agree {W : Type} (E : env W) (user_input : string)
    (user : User) (w : W) (response : string) :
  _determine_intent (lower user_input) = "other" ->
  result E (process_chat user_input user) w = Val response ->
  run E (process_natural_language_todo_command user_input user) w
  = run E (process_chat user_input user) w.
Proof.
  intros Hother. unfold result.
  rewrite process_command_is_turn, process_chat_is_turn, !turn_run.
  destruct (run E (current_conversation user) w)
    as [[[conversation|e] w1] log0]; [|reflexivity].
  destruct (E _ (create_message conversation "user" user_input) w1)
    as [[m|e] w2]; [|reflexivity].
  rewrite guarded_dispatch_run, Hother.
  change (dispatch "other" user_input conversation user)
    with (_handle_general_query user_input conversation user).
  destruct (run E (_handle_general_query user_input conversation user) w2)
    as [[[answer|e] w3] log3]; [reflexivity|].
  discriminate.
Qed.

(** X10: the two entry points part ways when the listing of the messages
    fails on a text classified as Other: [process_chat] lets the exception
    out, the user message logged and no answer; the command entry point
    logs and returns the apology. *)
Theorem listing_failure_splits_entry_points {W : Type} (E : env W)
    (user_input : string) (user : User) (w w1 w2 w3 : W)
    (conversation : Conversation.t) (m : Message.t) (log1 : list entry)
    (e : string) :
  run E (current_conversation user) w = (Val conversation, w1, log1) ->
  E _ (create_message conversation "user" user_input) w1 = (Val m, w2) ->
  _determine_intent (lower user_input) = "other" ->
  E _ (get_messages_by_conversation conversation user 1 10) w2
  = (Exn e, w3) ->
  let asked :=
    Entry (create_message conversation "user" user_input) (Val m) in
  let listed :=
    Entry (get_messages_by_conversation conversation user 1 10) (Exn e) in
  let answer := create_message conversation "assistant" (apology ++ e) in
  run E (process_chat user_input user) w
  = (Exn e, w3, (log1 ++ [asked; listed])%list)
  /\ calls E (process_natural_language_todo_command user_input user) w
     = (log1 ++ [asked; listed; Entry answer (fst (E _ answer w3))])%list
  /\ (forall m', fst (E _ answer w3) = Val m' ->
      result E (process_natural_language_todo_command user_input user) w
      = Val (apology ++ e)).
Proof.
  intros H0 H1 Hother H2 asked listed answer.
  assert (Hq : run E (_handle_general_query user_input conversation user) w2
               = (Exn e, w3, [listed])).
  { rewrite general_query_run. cbv zeta. now rewrite H2. }
  split.
  - rewrite process_chat_is_turn, turn_run, H0, H1, Hq. reflexivity.
  - unfold calls, result.
    rewrite process_command_is_turn, turn_run, H0, H1.
    rewrite guarded_dispatch_run, Hother.
    change (dispatch "other" user_input conversation user)
      with (_handle_general_query user_input conversation user).
    rewrite Hq. fold answer.
    destruct (E _ answer w3) as [[m'|e'] w4]; cbn [fst snd];
      (split; [reflexivity|]); [reflexivity | discriminate].
Qed.

(** X11: an exception that leaves
    [process_natural_language_todo_command] was raised while finding or
    creating the conversation or while logging one of the two messages;
    what a handler raises never leaves it. *)
Theorem only_boundary_failures_escape {W : Type} (E : env W)
    (user_input : string) (user : User) (w : W) (e : string) :
  result E (process_natural_language_todo_command user_input user) w = Exn e ->
  boundary_failure E user_input user w e.
Proof.
  unfold result. rewrite process_command_is_turn, turn_run.
  destruct (run E (current_conversation user) w)
    as [[[conversation|e0] w1] log0] eqn:H0.
  - destruct (E _ (create_message conversation "user" user_input) w1)
      as [[m|e1] w2] eqn:H1.
    + destruct (run E (guarded_dispatch _ user_input conversation user) w2)
        as [[[response|e3] w3] log3] eqn:H3.
      * destruct (E _ (create_message conversation "assistant" response) w3)
          as [[m'|e4] w4] eqn:H4; cbn [fst]; [discriminate|].
        intros [= <-].
        exact (answer_log_fails E user_input user w e4 conversation m response
                 w1 w2 w3 w4 log0 log3 H0 H1 H3 H4).
      * rewrite guarded_dispatch_run in H3.
        destruct (run E (dispatch _ user_input conversation user) w2)
          as [[r w3'] log3']. discriminate H3.
    + cbn [fst]. intros [= <-].
      exact (user_log_fails E user_input user w e1 conversation w1 w2 log0
               H0 H1).
  - cbn [fst]. intros [= <-]. rewrite current_conversation_run in H0.
    destruct (E _ (get_user_conversations user 1 1) w)
      as [[[[|c rest] total]|e'] w0] eqn:Hl.
    + destruct (E _ (create_conversation user) w0) as [[c|e''] w2] eqn:Hc;
        [discriminate|].
      injection H0 as <- _ _.
      exact (creation_fails E user_input user w e'' total w0 w2 Hl Hc).
    + discriminate.
    + injection H0 as <- _ _.
      exact (lookup_fails E user_input user w e' w0 Hl).
Qed.

(** X12: the Update handler never asks the store for an empty title, nor
    for one with whitespace at an end: it asks at most once, for the user
    it was called for, for the first todo of its own listing, and with the
    title it computed. *)
Theorem update_requests_proper {W : Type} (E : env W) (user_input : string)
    (user : User) (w : W) :
  let requests :=
    update_requests (calls E (_handle_update_todo user_input user) w) in
  List.length requests <= 1
  /\ Forall (fun request =>
               let '(todo_id, u, title) := request in
               u = user
               /\ title = update_new_title user_input
               /\ title <> ""
               /\ strip title = title
               /\ In (todo_id, u) (listed_target E user w))
            requests.
Proof.
  cbv zeta. unfold calls, listed_target. rewrite update_todo_run. cbv zeta.
  destruct (E _ (get_user_todos user None 1 1) w)
    as [[[[|todo rest] total]|e] w1]; cbn [fst snd];
    try (split; [cbn; lia | constructor]).
  destruct (String.eqb_spec (update_new_title user_input) "") as [Hempty|Hne].
  - split; [cbn; lia | constructor].
  - destruct (E _ (update_todo _ user _) w1) as [o' w2].
    cbn [snd update_requests flat_map app TodoUpdate.title].
    split; [cbn; lia|]. constructor; [|constructor].
    repeat split; try assumption.
    + unfold update_new_title. apply strip_idem.
    + now left.
Qed.

(** X13: the Add handler has no check on the title: when nothing is left
    of the text after the fillers are removed, the store is still asked,
    once, for a todo with an empty title, and the answer quotes the title
    of what the store created. *)
Theorem add_accepts_empty_title {W : Type} (E : env W) (user_input : string)
    (user : User) (w : W) :
  extract_title user_input = "" ->
  let request :=
    create_todo user {| TodoCreate.title := "";
                        TodoCreate.description := "";
                        TodoCreate.is_completed := false |} in
  calls E (_handle_add_todo user_input user) w
  = [Entry request (fst (E _ request w))]
  /\ (forall todo, fst (E _ request w) = Val todo ->
      result E (_handle_add_todo user_input user) w
      = Val ("I've added '" ++ Todo.title todo ++ "' to your todo list."))
  /\ (forall e, fst (E _ request w) = Exn e ->
      result E (_handle_add_todo user_input user) w = Exn e).
Proof.
  intros Htitle request. unfold calls, result, _handle_add_todo.
  unfold extract_title in Htitle. cbv zeta.
  change (info_description (_extract_todo_info user_input)) with "".
  rewrite Htitle. fold request. rewrite run_bind, run_perform.
  destruct (E _ request w) as [[todo|e] w1]; cbn [fst snd run app].
  - split; [reflexivity|]. split; [now intros ? [= <-] | discriminate].
  - split; [reflexivity|]. split; [discriminate | now intros ? [= <-]].
Qed.

(** X14: the constructor raises exactly when GEMINI_API_KEY is unset or
    set to the empty string, always with the same message; otherwise the
    key it configures is the value of the variable, which is not empty,
    and the model is "gemini-pro".  No other variable matters. *)
Theorem init_requires_key (getenv : string -> option string) :
  (__init__ getenv = Exn "GEMINI_API_KEY environment variable is required"
   <-> getenv "GEMINI_API_KEY" = None \/ getenv "GEMINI_API_KEY" = Some "")
  /\ (forall e, __init__ getenv = Exn e ->
                e = "GEMINI_API_KEY environment variable is required")
  /\ (forall service, __init__ getenv = Val service ->
        getenv "GEMINI_API_KEY" = Some (configured_key service)
        /\ configured_key service <> ""
        /\ model_name service = "gemini-pro")
  /\ (forall getenv', getenv' "GEMINI_API_KEY" = getenv "GEMINI_API_KEY" ->
        __init__ getenv' = __init__ getenv).
Proof.
  unfold __init__.
  split; [|split; [|split]].
  - destruct (getenv "GEMINI_API_KEY") as [[|c key]|]; split;
      try (intros [H|H]); try discriminate; auto.
  - destruct (getenv "GEMINI_API_KEY") as [[|c key]|]; intros e [= <-];
      reflexivity.
  - destruct (getenv "GEMINI_API_KEY") as [[|c key]|]; intros service [= <-].
    cbn. repeat split. discriminate.
  - now intros getenv' ->.
Qed.

(** X15: when the model fails in [process_chat], the call still completes:
    the apology with the text of the failure is logged as the assistant
    message and, the store accepting it, returned. *)
Theorem chat_model_failure {W : Type} (E : env W) (user_input : string)
    (user : User) (w w1 w2 w3 w4 : W) (conversation : Conversation.t)
    (m : Message.t) (log1 : list entry) (recent_messages : list Message.t)
    (total : nat) (e : string) :
  run E (current_conversation user) w = (Val conversation, w1, log1) ->
  E _ (create_message conversation "user" user_input) w1 = (Val m, w2) ->
  E _ (get_messages_by_conversation conversation user 1 10) w2
  = (Val (recent_messages, total), w3) ->
  E _ (send_message (map format_message recent_messages) user_input) w3
  = (Exn e, w4) ->
  let answer := create_message conversation "assistant" (apology ++ e) in
  calls E (process_chat user_input user) w
  = (log1
     ++ [ Entry (create_message conversation "user" user_input) (Val m);
          Entry (get_messages_by_conversation conversation user 1 10)
                (Val (recent_messages, total));
          Entry (send_message (map format_message recent_messages)
                              user_input) (Exn e);
          Entry answer (fst (E _ answer w4)) ])%list
  /\ (forall m', fst (E _ answer w4) = Val m' ->
      result E (process_chat user_input user) w = Val (apology ++ e)).
Proof.
  intros H0 H1 H2 H3 answer. unfold calls, result.
  rewrite process_chat_is_turn, turn_run, H0, H1.
  rewrite general_query_run. cbv zeta. rewrite H2, H3. fold answer.
  destruct (E _ answer w4) as [[m'|e'] w5]; cbn [fst snd];
    (split; [reflexivity|]); [reflexivity | discriminate].
Qed.

(** X16: Complete and Delete pay no attention to the text when they choose
    their todo: what they ask the store to toggle or to delete is the
    first todo of the listing of page 1, limit 1, or nothing when the
    listing is empty or fails; Complete deletes nothing and Delete toggles
    nothing. *)
Theorem handlers_act_on_listed_todo {W : Type} (E : env W)
    (user_input : string) (user : User) (w : W) :
  toggle_requests (calls E (_handle_complete_todo user_input user) w)
  = listed_target E user w
  /\ delete_requests (calls E (_handle_delete_todo user_input user) w)
     = listed_target E user w
  /\ delete_requests (calls E (_handle_complete_todo user_input user) w) = []
  /\ toggle_requests (calls E (_handle_delete_todo user_input user) w) = [].
Proof.
  unfold calls, listed_target.
  rewrite complete_todo_run, delete_todo_run. cbv zeta.
  destruct (E _ (get_user_todos user None 1 1) w)
    as [[[[|todo rest] total]|e] w1]; cbn [fst snd];
    try (repeat split; reflexivity).
  destruct (E _ (toggle_todo_completion _ user) w1) as [o1 w2].
  destruct (E _ (delete_todo _ user) w1) as [o2 w3].
  repeat split; reflexivity.
Qed.

(** ** The further properties on sample runs *)

Lemma extract_title_without_fillers_witness :
  extract_title "  Buy Milk " = "buy milk".
Proof.
  apply (extract_title_without_fillers "  Buy Milk ").
  intros token Hin. cbn [filler_tokens In] in Hin.
  repeat (destruct Hin as [<-|Hin]; [reflexivity|]). contradiction.
Defined.

Lemma chat_and_command_agree_witness :
  run healthy (process_natural_language_todo_command "hello" 7) Mem.empty
  = run healthy (process_chat "hello" 7) Mem.empty.
Proof.
  exact (chat_and_command_agree healthy "hello" 7 Mem.empty "Hello!"
           eq_refl eq_refl).
Defined.

Lemma listing_failure_witness :
  result history_out (process_chat "hello" 7) Mem.empty
  = Exn "message store unavailable"
  /\ result history_out
       (process_natural_language_todo_command "hello" 7) Mem.empty
     = Val (apology ++ "message store unavailable").
Proof.
  pose proof (listing_failure_splits_entry_points history_out "hello" 7
                Mem.empty _ _ _ _ _ _ _ eq_refl eq_refl eq_refl eq_refl) as H.
  cbv zeta in H. destruct H as (Hchat & _ & Hcommand). split.
  - unfold result. now rewrite Hchat.
  - exact (Hcommand _ eq_refl).
Defined.

Lemma only_boundary_failures_witness :
  boundary_failure conversations_out "add milk" 7 Mem.empty
    "conversation store unavailable".
Proof.
  exact (only_boundary_failures_escape conversations_out "add milk" 7
           Mem.empty "conversation store unavailable" eq_refl).
Defined.

Lemma add_accepts_empty_title_witness :
  result healthy (_handle_add_todo "add me to" 7) Mem.empty
  = Val "I've added '' to your todo list.".
Proof.
  exact (proj1 (proj2 (add_accepts_empty_title healthy "add me to" 7
                         Mem.empty eq_refl)) _ eq_refl).
Defined.

Lemma chat_model_failure_witness :
  result model_out (process_chat "hello" 7) Mem.empty
  = Val (apology ++ "quota exceeded").
Proof.
  exact (proj2 (chat_model_failure model_out "hello" 7 Mem.empty
                  _ _ _ _ _ _ _ _ _ _ eq_refl eq_refl eq_refl eq_refl)
           _ eq_refl).
Defined.

(** X17: nothing is done before the user message is logged: when a run of
    [process_natural_language_todo_command] has changed the todo store or
    asked the model, the conversation was found or created and the user
    message was written to it first. *)
Theorem effects_follow_logging {W : Type} (E : env W) (user_input : string)
    (user : User) (w : W) :
  filter (of_kind is_effect)
    (calls E (process_natural_language_todo_command user_input user) w)
  <> [] ->
  exists conversation m w1 w2 log1 rest,
    run E (current_conversation user) w = (Val conversation, w1, log1)
    /\ E _ (create_message conversation "user" user_input) w1 = (Val m, w2)
    /\ filter (of_kind is_effect) log1 = []
    /\ calls E (process_natural_language_todo_command user_input user) w
       = (log1
          ++ Entry (create_message conversation "user" user_input) (Val m)
          :: rest)%list.
Proof.
  unfold calls. rewrite process_command_is_turn, turn_run.
  assert (Hquiet : avoids is_effect (current_conversation user))
    by (unfold current_conversation; quiet).
  pose proof (avoids_run E is_effect _ Hquiet w) as H0'. unfold calls in H0'.
  destruct (run E (current_conversation user) w)
    as [[[conversation|e] w1] log0] eqn:H0; cbn [snd] in H0'.
  - destruct (E _ (create_message conversation "user" user_input) w1)
      as [[m|e] w2] eqn:H1.
    + intros _.
      destruct (run E (guarded_dispatch _ user_input conversation user) w2)
        as [[[response|e] w3] log3].
      * destruct (E _ (create_message conversation "assistant" response) w3)
          as [o4 w4].
        now exists conversation, m, w1, w2, log0,
          (log3 ++ [Entry (create_message conversation "assistant" response)
                          o4])%list.
      * now exists conversation, m, w1, w2, log0, log3.
    + cbn [snd]. rewrite filter_app, H0'. cbn. congruence.
  - cbn [snd]. congruence.
Qed.

(** X18: letter case is ignored where the class lowercases: two texts
    that are equal once lowercased get the same intent, the same listing
    filter and the same title, and lowercasing the text before
    [_determine_intent], as the dispatcher does, changes nothing. *)
Theorem case_is_ignored (s t : string) :
  lower s = lower t ->
  _determine_intent s = _determine_intent t
  /\ _determine_intent (lower s) = _determine_intent t
  /\ status_filter s = status_filter t
  /\ extract_title s = extract_title t.
Proof.
  intros H. unfold _determine_intent, status_filter, extract_title,
    _extract_todo_info. rewrite lower_idem, H. repeat split.
Qed.

(** X19: nothing is undone when the answer cannot be logged: the call
    raises what the message store raised, after every call of the handler
    has been made, and ends in the state the failed write left. *)
Theorem failed_answer_log_keeps_effects {W : Type} (E : env W)
    (user_input : string) (user : User) (w w1 w2 w3 w4 : W)
    (conversation : Conversation.t) (m : Message.t) (response e : string)
    (log1 log3 : list entry) :
  run E (current_conversation user) w = (Val conversation, w1, log1) ->
  E _ (create_message conversation "user" user_input) w1 = (Val m, w2) ->
  run E (guarded_dispatch (_determine_intent (lower user_input)) user_input
           conversation user) w2 = (Val response, w3, log3) ->
  E _ (create_message conversation "assistant" response) w3 = (Exn e, w4) ->
  run E (process_natural_language_todo_command user_input user) w
  = (Exn e, w4,
     (log1
      ++ Entry (create_message conversation "user" user_input) (Val m)
      :: log3
      ++ [Entry (create_message conversation "assistant" response)
                (Exn e)])%list).
Proof.
  intros H0 H1 H3 H4.
  now rewrite process_command_is_turn, turn_run, H0, H1, H3, H4.
Qed.

Lemma effects_follow_logging_witness :
  exists conversation m w1 w2 log1 rest,
    run healthy (current_conversation 7) Mem.empty
    = (Val conversation, w1, log1)
    /\ healthy _ (create_message conversation "user" "add milk") w1
       = (Val m, w2)
    /\ filter (of_kind is_effect) log1 = []
    /\ calls healthy (process_natural_language_todo_command "add milk" 7)
         Mem.empty
       = (log1
          ++ Entry (create_message conversation "user" "add milk") (Val m)
          :: rest)%list.
Proof.
  apply (effects_follow_logging healthy "add milk" 7 Mem.empty).
  discriminate.
Defined.

Lemma case_is_ignored_witness :
  _determine_intent "ADD Milk" = _determine_intent "add milk"
  /\ extract_title "ADD Milk" = extract_title "add milk".
Proof.
  destruct (case_is_ignored "ADD Milk" "add milk" eq_refl)
    as (H1 & _ & _ & H4).
  exact (conj H1 H4).
Defined.

Lemma failed_answer_log_witness :
  result answers_out
    (process_natural_language_todo_command "add milk" 7) Mem.empty
  = Exn "message store unavailable"
  /\ map Todo.title
       (Mem.todos
          (final answers_out
             (process_natural_language_todo_command "add milk" 7) Mem.empty))
     = ["milk"].
Proof.
  pose proof (failed_answer_log_keeps_effects answers_out "add milk" 7
                Mem.empty _ _ _ _ _ _ _ _ _ _
                eq_refl eq_refl eq_refl eq_refl) as H.
  unfold result, final. rewrite H. split; reflexivity.
Defined.
